(** * trading-bot: the signal engine, the order ledger and the Bitfinex adapter

    A shallow embedding of [src/lib/simple_bot.js] and
    [src/lib/services/bfx_service.js], with the properties of the
    specification stated and proved over it.

    Conventions of the embedding:
    - a JavaScript number is an element of a type [num] carrying the
      operations the bot uses ([JSNumber]); nothing is assumed about it
      beyond three facts on its comparisons, which hold for IEEE doubles
      ([float_JSNumber]) and for exact rationals ([Q_JSNumber]) alike;
    - [undefined] read from an array or a field is [None];
    - [this.candles] and [this.tickers] are plain objects ([{}]): each is
      a [gmap string _] of its own properties, read through
      [Object.prototype] for the names it does not own ([readCandles],
      [hasTicker]); an assignment to ['__proto__'] goes to the setter of
      [Object.prototype] ([tickers_proto]);
    - an argument that should be a string is an [option string], [None]
      standing for a value that is no string and has none of the methods
      of one ([undefined], [null], a number, a plain object);
    - a method that mutates [this] and may throw is a function from the
      state to the state left behind and a completion ([Normal] or
      [Throw]);
    - [Math.random()] and [Date.now()] are inputs of the call that reads
      them;
    - the logger is [console], or one whose methods return as its do:
      [logger.debug] lines of the bot are not recorded, [logger.error]
      lines of the adapter are. *)

From Stdlib Require Import Ascii QArith Qround Floats Lqa.
From stdpp Require Import gmap strings list fin_maps sorting.

Set Default Proof Using "Type".

(** ** JavaScript numbers *)

Class JSNumber (num : Type) := {
  num_zero : num;
  num_one : num;
  num_neg_one : num;
  nadd : num → num → num;
  nsub : num → num → num;
  nmul : num → num → num;
  ndiv : num → num → num;
  (** [a > b], [a < b] and [a === b] on numbers *)
  ngt : num → num → bool;
  nlt : num → num → bool;
  neqb : num → num → bool;
  (** [Number(x.toFixed(8))]: the number denoted by the 8-decimal string *)
  toFixed8 : num → num;
  neqb_not_gt a b : neqb a b = true → ngt a b = false;
  neqb_not_lt a b : neqb a b = true → nlt a b = false;
  nlt_not_gt a b : nlt a b = true → ngt a b = false;
}.

(** [a > b] and [a < b] where either side may be [undefined]: a comparison
    with [undefined] is [false]. *)
Definition js_gt {num : Type} `{!JSNumber num} (a b : option num) : bool :=
  match a, b with
  | Some x, Some y => ngt x y
  | _, _ => false
  end.

Definition js_lt {num : Type} `{!JSNumber num} (a b : option num) : bool :=
  match a, b with
  | Some x, Some y => nlt x y
  | _, _ => false
  end.

(** A number or [undefined] used as a condition. [undefined], [0], [-0]
    and [NaN] are falsy; a number is one of the last three exactly when it
    is neither above nor below [0]. *)
Definition js_truthy {num : Type} `{!JSNumber num} (a : option num) : bool :=
  match a with
  | Some x => ngt x num_zero || nlt x num_zero
  | None => false
  end.
(** ** The moving-average library ([technicalindicators])

    [EMA.calculate({ period, values })] and [SMA.calculate({ period, values })]
    belong to an external package; the bot only reads the last element of
    what they return. *)
Class Indicators (num : Type) := {
  EMA_calculate : nat → list num → list num;
  SMA_calculate : nat → list num → list num;
}.

(** ** Signals *)

Inductive Signal := Buy | Sell | Neutral | Unknown.

Global Instance Signal_eq_dec : EqDecision Signal.
Proof. solve_decision. Defined.

Inductive Vote := VoteBuy | VoteSell | NoVote.

Global Instance Vote_eq_dec : EqDecision Vote.
Proof. solve_decision. Defined.

Section signal_engine.
Context {num : Type} `{!JSNumber num, !Indicators num}.

Definition periods : list nat := [5; 10; 20].

(** The body of the [periods.forEach] callback, on the counters
    [(buy, sell)]. *)
Definition count_vote (calculate : nat → list num → list num)
    (values : list num) (lastPrice : option num)
    (counters : nat * nat) (period : nat) : nat * nat :=
  let ma := calculate period values in
  let maCurrent := last ma in
  if js_gt maCurrent lastPrice then (counters.1, S counters.2)
  else if js_lt maCurrent lastPrice then (S counters.1, counters.2)
  else counters.

(** [ema(values)]: the counters after the loop, then the verdict. *)
Definition ema_counters (values : list num) : nat * nat :=
  let lastPrice := last values in
  foldl (count_vote EMA_calculate values lastPrice) (0, 0) periods.

Definition ema (values : list num) : Signal :=
  if bool_decide (length values = 0) then Unknown
  else
    let counters := ema_counters values in
    if bool_decide (counters.1 = length periods) then Buy
    else if bool_decide (counters.2 = length periods) then Sell
    else Neutral.

(** [sma(values)] *)
Definition sma_counters (values : list num) : nat * nat :=
  let lastPrice := last values in
  foldl (count_vote SMA_calculate values lastPrice) (0, 0) periods.

Definition sma (values : list num) : Signal :=
  if bool_decide (length values = 0) then Unknown
  else
    let counters := sma_counters values in
    if bool_decide (counters.1 = length periods) then Buy
    else if bool_decide (counters.2 = length periods) then Sell
    else Neutral.

(** [signal(values)] *)
Definition signal (values : list num) : Signal :=
  let emaResult := ema values in
  let smaResult := sma values in
  if bool_decide (emaResult = Buy ∧ smaResult = Buy) then Buy
  else if bool_decide (emaResult = Sell ∧ smaResult = Sell) then Sell
  else Neutral.

(** The vote one period casts: which branch of the callback is taken. *)
Definition period_vote (calculate : nat → list num → list num)
    (values : list num) (period : nat) : Vote :=
  let maCurrent := last (calculate period values) in
  let lastPrice := last values in
  if js_gt maCurrent lastPrice then VoteSell
  else if js_lt maCurrent lastPrice then VoteBuy
  else NoVote.

End signal_engine.

(** ** Completions and methods *)

Inductive error := TypeError.

Inductive completion (A : Type) :=
  | Normal (a : A)
  | Throw (e : error).
Arguments Normal {A} a.
Arguments Throw {A} e.

Global Instance completion_ret : MRet completion := λ A a, Normal a.
Global Instance completion_bind : MBind completion := λ A B f c,
  match c with
  | Normal a => f a
  | Throw e => Throw e
  end.

(** A method of an object with state [S]: the state it leaves behind and
    how it completed. What was mutated before a [throw] stays mutated. *)
Definition Method (S A : Type) : Type := S → S * completion A.

Global Instance method_ret {S} : MRet (Method S) := λ A a this, (this, Normal a).
Global Instance method_bind {S} : MBind (Method S) := λ A B f m this,
  match m this with
  | (this', Normal a) => f a this'
  | (this', Throw e) => (this', Throw e)
  end.

Definition throw {S A} (e : error) : Method S A := λ this, (this, Throw e).

(** [xs.forEach(f)] for a callback that may throw. *)
Fixpoint forEach {S X} (xs : list X) (f : X → Method S ()) : Method S () :=
  match xs with
  | [] => mret ()
  | x :: xs' => f x;; forEach xs' f
  end.

(** ** Data model *)

Record Candle (num : Type) := {
  mts : option Z;          (* [undefined] when the field is absent *)
  open : num;
  close : num;
  high : num;
  low : num;
  vol : num;
}.
Arguments mts {num} _.
Arguments open {num} _.
Arguments close {num} _.
Arguments high {num} _.
Arguments low {num} _.
Arguments vol {num} _.

(** One element of what [emit('candles', sticks)] carries. *)
Record Stick (num : Type) := {
  stick_symbol : string;
  stick_candle : Candle num;
}.
Arguments stick_symbol {num} _.
Arguments stick_candle {num} _.

(** [{ bid, ask }]; a field the raw ticker does not carry is [undefined]. *)
Record Prices (num : Type) := { bid : option num; ask : option num }.
Arguments bid {num} _.
Arguments ask {num} _.

Record Order (num : Type) := {
  order_symbol : string;
  order_signal : Signal;
  order_price : num;
  order_amount : num;
  order_timestamp : Z;
}.
Arguments order_symbol {num} _.
Arguments order_signal {num} _.
Arguments order_price {num} _.
Arguments order_amount {num} _.
Arguments order_timestamp {num} _.

(** What [formatCandles] returns. *)
Record Format (num : Type) := {
  format_open : list num;
  format_close : list num;
  format_high : list num;
  format_low : list num;
  format_vol : list num;
}.
Arguments format_open {num} _.
Arguments format_close {num} _.
Arguments format_high {num} _.
Arguments format_low {num} _.
Arguments format_vol {num} _.

(** ** Plain objects used as dictionaries

    [this.candles], [this.tickers] and [updatedSymbols] are made by [{}].
    A name that is no own property of such an object is looked up in its
    prototype, [Object.prototype], which has these members. *)

Definition ObjectPrototype : list string :=
  ["constructor"; "__defineGetter__"; "__defineSetter__"; "hasOwnProperty";
   "__lookupGetter__"; "__lookupSetter__"; "isPrototypeOf";
   "propertyIsEnumerable"; "toString"; "valueOf"; "__proto__";
   "toLocaleString"].

Definition inherited (name : string) : bool :=
  bool_decide (name ∈ ObjectPrototype).

(** What [this.candles] can hold under a name: an array of candles, or a
    member of [Object.prototype] that was read under that name and stored
    back (one of its functions or, for ['__proto__'], the prototype
    itself). Such a member [m] is truthy and is no array: it has neither
    [push] nor [forEach], and [m[m.length - 1]] is [undefined]. *)
Inductive Slot (num : Type) :=
  | Series (series : list (Candle num))
  | Member.
Arguments Series {num} series.
Arguments Member {num}.

Record SimpleBot (num : Type) := {
  symbols : list string;
  maxSpendInUSD : num;
  (** the own properties of [this.candles] *)
  candles : gmap string (Slot num);
  (** the own properties of [this.tickers] *)
  tickers : gmap string (Prices num);
  (** the prototype of [this.tickers]: [Object.prototype] ([None]) until
      an assignment to ['__proto__'] puts a [{ bid, ask }] in its place *)
  tickers_proto : option (Prices num);
  myOrders : list (Order num);
}.
Arguments symbols {num} _.
Arguments maxSpendInUSD {num} _.
Arguments candles {num} _.
Arguments tickers {num} _.
Arguments tickers_proto {num} _.
Arguments myOrders {num} _.

(** ** [Object.keys] of an object filled by assignments

    The own string keys of an ordinary object come out with the array
    indices first, in ascending numeric order, then the other keys in the
    order of their first assignment. *)

Definition digit_of (c : ascii) : option N :=
  let n := N_of_ascii c in
  if bool_decide (48 ≤ n ∧ n ≤ 57)%N then Some (n - 48)%N else None.

Fixpoint parse_digits (acc : N) (s : string) : option N :=
  match s with
  | EmptyString => Some acc
  | String c r => d ← digit_of c; parse_digits (acc * 10 + d)%N r
  end.

(** [Some n] when [s] is the canonical decimal string of an array index. *)
Definition array_index (s : string) : option N :=
  match s with
  | EmptyString => None
  | String c r =>
      if bool_decide (c = "0"%char)
      then (if bool_decide (r = EmptyString) then Some 0%N else None)
      else n ← parse_digits 0 s;
           if bool_decide (n < 2 ^ 32 - 1)%N then Some n else None
  end.

Fixpoint first_occurrences (seen : list string) (ks : list string) : list string :=
  match ks with
  | [] => []
  | k :: ks' =>
      if bool_decide (k ∈ seen) then first_occurrences seen ks'
      else k :: first_occurrences (k :: seen) ks'
  end.

Definition index_le (k1 k2 : string) : Prop :=
  (default 0 (array_index k1) ≤ default 0 (array_index k2))%N.

Global Instance index_le_dec : RelDecision index_le.
Proof. intros k1 k2. unfold index_le. apply _. Defined.

Definition object_keys (assigned : list string) : list string :=
  let own := first_occurrences [] assigned in
  merge_sort index_le (filter (λ k, is_Some (array_index k)) own)
  ++ filter (λ k, array_index k = None) own.


(** ** The bot ([SimpleBot]) *)

Section simple_bot.
Context {num : Type} `{!JSNumber num, !Indicators num}.

Definition with_candles (cs : gmap string (Slot num))
    (this : SimpleBot num) : SimpleBot num :=
  {| symbols := symbols this; maxSpendInUSD := maxSpendInUSD this;
     candles := cs; tickers := tickers this;
     tickers_proto := tickers_proto this; myOrders := myOrders this |}.

Definition with_tickers (ts : gmap string (Prices num))
    (this : SimpleBot num) : SimpleBot num :=
  {| symbols := symbols this; maxSpendInUSD := maxSpendInUSD this;
     candles := candles this; tickers := ts;
     tickers_proto := tickers_proto this; myOrders := myOrders this |}.

Definition with_tickers_proto (proto : option (Prices num))
    (this : SimpleBot num) : SimpleBot num :=
  {| symbols := symbols this; maxSpendInUSD := maxSpendInUSD this;
     candles := candles this; tickers := tickers this;
     tickers_proto := proto; myOrders := myOrders this |}.

Definition with_myOrders (os : list (Order num))
    (this : SimpleBot num) : SimpleBot num :=
  {| symbols := symbols this; maxSpendInUSD := maxSpendInUSD this;
     candles := candles this; tickers := tickers this;
     tickers_proto := tickers_proto this; myOrders := os |}.

(** [new SimpleBot(symbols, maxSpendInUSD)] *)
Definition constructor (symbols : list string) (maxSpendInUSD : num)
    : SimpleBot num :=
  {| symbols := symbols; maxSpendInUSD := maxSpendInUSD;
     candles := ∅; tickers := ∅; tickers_proto := None; myOrders := [] |}.

(** [this.candles[symbol]]: the own property of that name or, failing
    that, the member of [Object.prototype] of that name. *)
Definition readCandles (this : SimpleBot num) (symbol : string)
    : option (Slot num) :=
  match candles this !! symbol with
  | Some slot => Some slot
  | None => if inherited symbol then Some Member else None
  end.

(** [this.tickers[symbol]] used as a condition. An own property holds a
    [{ bid, ask }] object, which is truthy. Failing that, a prototype put
    in place by an assignment to ['__proto__'] answers for its fields
    [bid] and [ask], and [Object.prototype], behind it, for its members,
    all of them truthy. *)
Definition hasTicker (this : SimpleBot num) (symbol : string) : bool :=
  match tickers this !! symbol with
  | Some _ => true
  | None =>
      match tickers_proto this with
      | Some prices =>
          if bool_decide (symbol = "bid") then js_truthy (bid prices)
          else if bool_decide (symbol = "ask") then js_truthy (ask prices)
          else inherited symbol
      | None => inherited symbol
      end
  end.

(** [(signal === 'buy' ? 1 : -1)] *)
Definition direction (signal : Signal) : num :=
  if bool_decide (signal = Buy) then num_one else num_neg_one.

(** The callback of [this.myOrders.forEach] in [getCurrentPoL], on the
    accumulator [value]. Reading [.close] of the last element throws when
    there is none: for an empty array, and for a member of
    [Object.prototype]. *)
Definition addChange (this : SimpleBot num) (value : num) (order : Order num)
    : completion num :=
  match readCandles this (order_symbol order) with
  | Some (Series candles) =>
      match last candles with
      | Some lastCandle =>
          let lastClose := close lastCandle in
          let change :=
            nmul (nmul (direction (order_signal order))
                       (nsub lastClose (order_price order)))
                 (order_amount order) in
          Normal (nadd value change)
      | None => Throw TypeError
      end
  | Some Member => Throw TypeError
  | None => Normal value
  end.

Fixpoint sumChanges (this : SimpleBot num) (value : num)
    (orders : list (Order num)) : completion num :=
  match orders with
  | [] => Normal value
  | order :: orders' =>
      value' ← addChange this value order; sumChanges this value' orders'
  end.

Definition getCurrentPoL : Method (SimpleBot num) num := λ this,
  (this, sumChanges this num_zero (myOrders this)).

(** [formatCandles(candles)], for an argument that is not [undefined]:
    [candles.forEach] is no function when [candles] is a member of
    [Object.prototype]. *)
Definition formatCandles (candles : Slot num) : completion (Format num) :=
  match candles with
  | Series candles =>
      Normal
        (foldl (λ format candle,
                  {| format_open := format_open format ++ [open candle];
                     format_close := format_close format ++ [close candle];
                     format_high := format_high format ++ [high candle];
                     format_low := format_low format ++ [low candle];
                     format_vol := format_vol format ++ [vol candle] |})
               {| format_open := []; format_close := []; format_high := [];
                  format_low := []; format_vol := [] |}
               candles)
  | Member => Throw TypeError
  end.

(** [placeOrder(symbol, signal, price, amount)], with the value [now]
    that [Date.now()] returns. *)
Definition placeOrder (symbol : string) (signal : Signal) (price amount : num)
    (now : Z) : Method (SimpleBot num) () := λ this,
  let order :=
    {| order_symbol := symbol; order_signal := signal; order_price := price;
       order_amount := amount; order_timestamp := now |} in
  (with_myOrders (myOrders this ++ [order]) this, Normal ()).

(** [checkTrade(symbol)], with the values [random] and [now] that
    [Math.random()] and [Date.now()] return. In the source an empty
    [candles.close] would make [price] [undefined]; that read sits under
    [signal === 'buy' || signal === 'sell'], which an empty series never
    satisfies (lemma [signal_acts_nonempty]), so the branch for it below
    is never taken. *)
Definition checkTrade (symbol : string) (random : num) (now : Z)
    : Method (SimpleBot num) () := λ this,
  match hasTicker this symbol, readCandles this symbol with
  | true, Some slot =>
      match formatCandles slot with
      | Normal candles =>
          let signal := signal (format_close candles) in
          if bool_decide (signal = Buy ∨ signal = Sell) then
            match last (format_close candles) with
            | Some price =>
                let amountUSD := nmul random (maxSpendInUSD this) in
                let amount := ndiv amountUSD price in
                (placeOrder symbol signal price (toFixed8 amount) now;;
                 getCurrentPoL;; mret ()) this
            | None => throw TypeError this
            end
          else (getCurrentPoL;; mret ()) this
      | Throw e => (this, Throw e)
      end
  | _, _ => (this, Normal ())
  end.

(** The callback of the first loop of [onUpdateCandles], on one stick:
    [this.candles[symbol] = this.candles[symbol] || []], then
    [this.candles[symbol].push(candle)]. An array, even an empty one, is
    truthy, and so is a member of [Object.prototype]: what was read is
    stored back as an own property. With no own property of that name,
    ['__proto__'] is the accessor of [Object.prototype]: the assignment
    hands its setter the prototype that was just read, which leaves the
    object as it is. A member of [Object.prototype] has no [push]. *)
Definition pushCandle (stick : Stick num) : Method (SimpleBot num) () := λ this,
  let symbol := stick_symbol stick in
  let slot := default (Series []) (readCandles this symbol) in
  let this :=
    if bool_decide (symbol = "__proto__" ∧ candles this !! symbol = None)
    then this
    else with_candles (<[symbol := slot]> (candles this)) this in
  match readCandles this symbol with
  | Some (Series series) =>
      (with_candles
         (<[symbol := Series (series ++ [stick_candle stick])]> (candles this))
         this,
       Normal ())
  | _ => (this, Throw TypeError)
  end.

(** The own properties of [updatedSymbols] once the first loop is through:
    [updatedSymbols[symbol] = true] creates one for every symbol but
    ['__proto__'], whose setter ignores a value that is no object. *)
Definition updatedSymbols (sticks : list (Stick num)) : list string :=
  filter (λ symbol, symbol ≠ "__proto__") (stick_symbol <$> sticks).

(** [onUpdateCandles(candles)]. [env symbol] gives the values of
    [Math.random()] and [Date.now()] read while [symbol] is checked; each
    updated symbol is checked once. *)
Definition onUpdateCandles (sticks : list (Stick num))
    (env : string → num * Z) : Method (SimpleBot num) () :=
  forEach sticks pushCandle;;
  forEach (object_keys (updatedSymbols sticks))
          (λ symbol, checkTrade symbol (env symbol).1 (env symbol).2).

(** [onUpdateTickers({ symbol, prices })]: [this.tickers[symbol] = prices].
    With no own property of that name, ['__proto__'] is the accessor of
    [Object.prototype]: its setter makes [prices] the prototype of
    [this.tickers] and creates no property. *)
Definition onUpdateTickers (symbol : string) (prices : Prices num)
    : Method (SimpleBot num) () := λ this,
  if bool_decide (symbol = "__proto__" ∧ tickers this !! symbol = None)
  then (with_tickers_proto (Some prices) this, Normal ())
  else (with_tickers (<[symbol := prices]> (tickers this)) this, Normal ()).
End simple_bot.

(** ** The adapter ([BFXSevice]) *)

(** What a handler may be handed in place of an object: [null] or
    [undefined] (reading a property of it throws), another primitive (the
    properties read here are [undefined]), or an object. *)
Inductive Raw (A : Type) :=
  | RawNullish
  | RawPrimitive
  | RawObject (a : A).
Arguments RawNullish {A}.
Arguments RawPrimitive {A}.
Arguments RawObject {A} a.

(** The first argument of the ['candle'] event. *)
Inductive Payload (num : Type) :=
  | NotArray (candle : Raw (Candle num))
  | Array (candles : list (Raw (Candle num))).
Arguments NotArray {num} candle.
Arguments Array {num} candles.

(** What a handler does to the outside: calls on the socket, log lines,
    events emitted to the listeners. *)
Inductive Action (num : Type) :=
  | WsOpen
  | SubscribeTicker (pair : string)
  | SubscribeCandles (channel : string)
  | LogError (message : string)
  | LogDebug (message : string)
  | EmitTicker (symbol : string) (prices : Prices num)
  | EmitCandles (sticks : list (Stick num)).
Arguments WsOpen {num}.
Arguments SubscribeTicker {num} pair.
Arguments SubscribeCandles {num} channel.
Arguments LogError {num} message.
Arguments LogDebug {num} message.
Arguments EmitTicker {num} symbol prices.
Arguments EmitCandles {num} sticks.

(** The events of the socket that [start] installs a handler for. The
    ['error'] event is given by what [JSON.stringify(err)] makes of its
    argument: the text that goes into the log line, or the [TypeError]
    thrown for a value with a cycle or a BigInt. A [pair] is [None] when
    it is no string. *)
Inductive WsEvent (num : Type) :=
  | EvError (err : completion string)
  | EvClose
  | EvOpen
  | EvTicker (pair : option string) (ticker : Raw (Prices num))
  | EvCandle (candles : Payload num) (pair : option string).
Arguments EvError {num} err.
Arguments EvClose {num}.
Arguments EvOpen {num}.
Arguments EvTicker {num} pair ticker.
Arguments EvCandle {num} candles pair.

(** [s.split(sep)] for a one-character separator. *)
Fixpoint split (sep : ascii) (s : string) : list string :=
  match s with
  | EmptyString => [EmptyString]
  | String c r =>
      if bool_decide (c = sep) then EmptyString :: split sep r
      else match split sep r with
           | field :: fields => String c field :: fields
           | [] => [String c EmptyString]
           end
  end.

Section bfx_service.
Context {num : Type}.

(** [formatSymbol(pair)]; [pair] is [None] for a value that is no string:
    [undefined], when [onCandles] finds no third field, or whatever else
    a handler was handed. Reading [substring] of [undefined] or [null]
    throws, and so does calling it on a value that has no such method. *)
Definition formatSymbol (pair : option string) : completion string :=
  match pair with
  | None => Throw TypeError
  | Some symbol =>
      Normal (if bool_decide (String.substring 0 1 symbol = "t")
              then String.substring 1 (String.length symbol - 1) symbol
              else symbol)
  end.

(** [onTicker(pair, ticker)] *)
Definition onTicker (pair : option string) (ticker : Raw (Prices num))
    : completion (list (Action num)) :=
  symbol ← formatSymbol pair;
  match ticker with
  | RawNullish => Throw TypeError
  | RawPrimitive => Normal [EmitTicker symbol {| bid := None; ask := None |}]
  | RawObject ticker =>
      Normal [EmitTicker symbol {| bid := bid ticker; ask := ask ticker |}]
  end.

(** [.filter(candle => (typeof candle.mts !== 'undefined'))] *)
Fixpoint filterMts (myCandles : list (Raw (Candle num)))
    : completion (list (Candle num)) :=
  match myCandles with
  | [] => Normal []
  | RawNullish :: _ => Throw TypeError
  | RawPrimitive :: rest => filterMts rest
  | RawObject candle :: rest =>
      kept ← filterMts rest;
      Normal (if bool_decide (is_Some (mts candle)) then candle :: kept
              else kept)
  end.

(** [onCandles(candles, pair)]; [pair.split] throws when [pair] is no
    string. *)
Definition onCandles (candles : Payload num) (pair : option string)
    : completion (list (Action num)) :=
  match pair with
  | None => Throw TypeError
  | Some key =>
      let options := split ":" key in
      symbol ← formatSymbol (options !! 2);
      let myCandles :=
        match candles with
        | Array candles => reverse candles
        | NotArray candle => [candle]
        end in
      kept ← filterMts myCandles;
      let sticks :=
        (λ candle, {| stick_symbol := symbol; stick_candle := candle |}) <$> kept in
      if bool_decide (length sticks = 0)
      then Normal [LogError ("Candle issue: " +:+ key)]
      else Normal [EmitCandles sticks]
  end.

(** The handlers [start] installs on the socket, for an adapter built
    with [symbols]. *)
Definition wsHandler (symbols : list string) (ev : WsEvent num)
    : completion (list (Action num)) :=
  match ev with
  | EvError err =>
      json ← err; Normal [LogError ("Bitfinex: error: " +:+ json)]
  | EvClose => Normal [LogError "Bitfinex: Connection closed"; WsOpen]
  | EvOpen =>
      Normal (LogDebug "Bitfinex: Connection open" ::
              symbols ≫= λ symbol,
                [SubscribeTicker ("t" +:+ symbol);
                 SubscribeCandles ("trade:1m:t" +:+ symbol)])
  | EvTicker key ticker => onTicker key ticker
  | EvCandle candles key => onCandles candles key
  end.

(** [start()]: the handlers are installed, then the socket is opened. *)
Definition start : list (Action num) := [WsOpen].

(** What the adapter does over a sequence of socket events, [start]
    included; a handler that throws has done nothing. *)
Definition actionsOf (symbols : list string) (ev : WsEvent num)
    : list (Action num) :=
  match wsHandler symbols ev with
  | Normal actions => actions
  | Throw _ => []
  end.

Definition serviceTrace (symbols : list string) (evs : list (WsEvent num))
    : list (Action num) :=
  start ++ (evs ≫= actionsOf symbols).
End bfx_service.

(** ** The bot listening to the adapter

    [SimpleBot.start] registers [onUpdateTickers] for ['ticker'] and
    [onUpdateCandles] for ['candles']; [emit] runs the listener before it
    returns, so a listener that throws makes the handler throw. *)
Section system.
Context {num : Type} `{!JSNumber num, !Indicators num}.

Definition listener (env : string → num * Z) (action : Action num)
    : Method (SimpleBot num) () :=
  match action with
  | EmitTicker symbol prices => onUpdateTickers symbol prices
  | EmitCandles sticks => onUpdateCandles sticks env
  | _ => mret ()
  end.

Definition deliver (ev : WsEvent num) (env : string → num * Z)
    : Method (SimpleBot num) () := λ this,
  match wsHandler (symbols this) ev with
  | Normal actions => forEach actions (listener env) this
  | Throw e => (this, Throw e)
  end.

(** The states the bot goes through under a sequence of socket events. *)
Definition run (evs : list (WsEvent num * (string → num * Z)))
    (this : SimpleBot num) : SimpleBot num :=
  foldl (λ this ev, (deliver ev.1 ev.2 this).1) this evs.
End system.

(** * Vocabulary of the properties *)

Section adapter_vocabulary.
Context {num : Type}.
Implicit Types (raws : list (Raw (Candle num))) (payload : Payload num).

(** [null] or [undefined]. *)
Definition isNullish {A} (raw : Raw A) : Prop :=
  match raw with
  | RawNullish => True
  | _ => False
  end.

Global Instance isNullish_dec {A} (raw : Raw A) : Decision (isNullish raw).
Proof. destruct raw; simpl; apply _. Defined.

(** The candle a raw value stands for, when it is an object with [mts]. *)
Definition stamped (raw : Raw (Candle num)) : option (Candle num) :=
  match raw with
  | RawObject candle => if bool_decide (is_Some (mts candle)) then Some candle else None
  | _ => None
  end.

(** The raw candles of a payload, as given and in the order [onCandles]
    goes through them. *)
Definition given payload : list (Raw (Candle num)) :=
  match payload with
  | Array raws => raws
  | NotArray raw => [raw]
  end.

Definition arranged payload : list (Raw (Candle num)) :=
  match payload with
  | Array raws => reverse raws
  | NotArray raw => [raw]
  end.

(** Timestamps carried by candles, in list order. *)
Definition timestamps (candles : list (Candle num)) : list Z := omap mts candles.

Definition rawTimestamps raws : list Z := timestamps (omap stamped raws).

Definition toStick (symbol : string) (candle : Candle num) : Stick num :=
  {| stick_symbol := symbol; stick_candle := candle |}.

Definition isWsOpen (action : Action num) : bool :=
  match action with
  | WsOpen => true
  | _ => false
  end.

Definition isEvClose (ev : WsEvent num) : bool :=
  match ev with
  | EvClose => true
  | _ => false
  end.

(** How many times the socket is (re)opened, how many times it closed. *)
Definition opens (actions : list (Action num)) : nat :=
  length (filter (λ action, isWsOpen action = true) actions).

Definition closes (evs : list (WsEvent num)) : nat :=
  length (filter (λ ev, isEvClose ev = true) evs).

End adapter_vocabulary.

Section bot_vocabulary.
Context {num : Type} `{!JSNumber num, !Indicators num}.
Implicit Types (this : SimpleBot num) (order : Order num).

(** The verdict that both families draw from their counters. *)
Definition verdict (counters : nat * nat) : Signal :=
  if bool_decide (counters.1 = length (periods : list nat)) then Buy
  else if bool_decide (counters.2 = length (periods : list nat)) then Sell
  else Neutral.


(** The invariant of the candle store: no symbol maps to an empty array. *)
Definition candlesNonEmpty this : Prop :=
  ∀ symbol series, candles this !! symbol = Some (Series series) → series ≠ [].

(** A member of [Object.prototype] is stored under no other name than
    those of its members, and an array under none of these. *)
Definition membersApart this : Prop :=
  ∀ symbol slot,
    candles this !! symbol = Some slot → (slot = Member ↔ inherited symbol = true).

(** [this.candles[order.symbol]] is truthy. *)
Definition hasCandleData this order : Prop :=
  is_Some (readCandles this (order_symbol order)).

Global Instance hasCandleData_dec this order : Decision (hasCandleData this order).
Proof. unfold hasCandleData. apply _. Defined.

(** The last close can be read for [order]: what [this.candles] gives
    under its symbol, if anything, is an array that is not empty. *)
Definition marked this order : Prop :=
  match readCandles this (order_symbol order) with
  | Some (Series series) => series ≠ []
  | Some Member => False
  | None => True
  end.

(** The close of the last candle of [symbol], when there is one. *)
Definition lastClose this (symbol : string) : option num :=
  match readCandles this symbol with
  | Some (Series series) => close <$> last series
  | _ => None
  end.

(** The array stored under [symbol], [[]] when there is none. *)
Definition seriesOf this (symbol : string) : list (Candle num) :=
  match candles this !! symbol with
  | Some (Series series) => series
  | _ => []
  end.

(** The public methods of the bot that the host or the adapter may call. *)
Inductive Call :=
  | CallOnUpdateCandles (sticks : list (Stick num)) (env : string → num * Z)
  | CallOnUpdateTickers (symbol : string) (prices : Prices num)
  | CallCheckTrade (symbol : string) (random : num) (now : Z)
  | CallPlaceOrder (symbol : string) (signal : Signal) (price amount : num) (now : Z)
  | CallGetCurrentPoL.

Definition call (c : Call) : Method (SimpleBot num) () :=
  match c with
  | CallOnUpdateCandles sticks env => onUpdateCandles sticks env
  | CallOnUpdateTickers symbol prices => onUpdateTickers symbol prices
  | CallCheckTrade symbol random now => checkTrade symbol random now
  | CallPlaceOrder symbol signal price amount now =>
      placeOrder symbol signal price amount now
  | CallGetCurrentPoL => getCurrentPoL;; mret ()
  end.

(** The bot after a sequence of calls; a call that throws leaves the state
    it reached. *)
Definition after (calls : list Call) this : SimpleBot num :=
  foldl (λ this c, (call c this).1) this calls.

(** [checkTrade] has something to act on: [this.tickers[symbol]] is
    truthy, [this.candles[symbol]] is a non-empty array and the combined
    signal is [Buy] or [Sell]. *)
Definition actionable this (symbol : string) : Prop :=
  hasTicker this symbol = true ∧
  ∃ series,
    candles this !! symbol = Some (Series series) ∧
    series ≠ [] ∧
    (signal (close <$> series) = Buy ∨ signal (close <$> series) = Sell).

(** The order [checkTrade] places for [symbol]. *)
Definition orderFor this (symbol : string) (series : list (Candle num))
    (lastCandle : Candle num) (random : num) (now : Z) : Order num :=
  {| order_symbol := symbol;
     order_signal := signal (close <$> series);
     order_price := close lastCandle;
     order_amount :=
       toFixed8 (ndiv (nmul random (maxSpendInUSD this)) (close lastCandle));
     order_timestamp := now |}.

(** Every candle of the store carries a timestamp. *)
Definition allStamped this : Prop :=
  ∀ symbol series candle,
    candles this !! symbol = Some (Series series) → candle ∈ series →
    is_Some (mts candle).

(** An action no listener of the bot reacts to. *)
Definition silent (action : Action num) : Prop :=
  match action with
  | EmitTicker _ _ | EmitCandles _ => False
  | _ => True
  end.

(** A ['candle'] event that [onCandles] gets through: the channel key is
    a string with a third field and no raw candle is [null] or
    [undefined]. *)
Definition wellFormed (payload : Payload num) (pair : option string) : Prop :=
  ∃ key, pair = Some key ∧ 3 ≤ length (split ":" key) ∧
         ¬ Exists isNullish (given payload).

(** The symbol a channel key stands for: its third field, without a
    leading [t]. *)
Definition channelSymbol (pair : option string) : option string :=
  key ← pair;
  match formatSymbol (split ":" key !! 2) with
  | Normal symbol => Some symbol
  | Throw _ => None
  end.

End bot_vocabulary.

(** ** Vocabulary of the further properties *)

(** [fields.join(sep)], and [s.includes(c)]. *)
Fixpoint join (sep : ascii) (fields : list string) : string :=
  match fields with
  | [] => EmptyString
  | field :: rest =>
      match rest with
      | [] => field
      | _ => field +:+ String sep (join sep rest)
      end
  end.

Fixpoint includes (c : ascii) (s : string) : bool :=
  match s with
  | EmptyString => false
  | String c' r => bool_decide (c' = c) || includes c r
  end.

Section further_vocabulary.
Context {num : Type} `{!JSNumber num, !Indicators num}.
Implicit Types (this : SimpleBot num).

(** An order [checkTrade] may have placed for [symbol] in [this]. *)
Definition placedFor this (symbol : string) (order : Order num) : Prop :=
  order_symbol order = symbol ∧
  (order_signal order = Buy ∨ order_signal order = Sell) ∧
  hasTicker this symbol = true ∧
  ∃ series lastCandle,
    candles this !! symbol = Some (Series series) ∧
    last series = Some lastCandle ∧
    order_price order = close lastCandle.

(** [this.tickers[symbol]] was truthy at some point: [symbol] has an own
    ticker, or it is a field of a prototype that an assignment to
    ['__proto__'] put in place. *)
Definition everTicker this (symbol : string) : Prop :=
  is_Some (tickers this !! symbol) ∨
  is_Some (tickers_proto this) ∧ symbol ∈ ["bid"; "ask"].

(** Every order is a buy or a sell for a symbol that had a ticker and
    has a non-empty array of candles. *)
Definition ledgerSound this : Prop :=
  Forall (λ order,
            (order_signal order = Buy ∨ order_signal order = Sell) ∧
            everTicker this (order_symbol order) ∧
            ∃ series,
              candles this !! order_symbol order = Some (Series series) ∧
              series ≠ [])
         (myOrders this).

(** What holds of the bot under socket events. *)
Definition underEvents this : Prop :=
  candlesNonEmpty this ∧ membersApart this ∧ allStamped this ∧ ledgerSound this.

Definition isTickerEvent (ev : WsEvent num) : Prop :=
  match ev with
  | EvTicker _ _ => True
  | _ => False
  end.

Definition isSocketCall (action : Action num) : bool :=
  match action with
  | WsOpen | SubscribeTicker _ | SubscribeCandles _ => true
  | _ => false
  end.

(** The calls made on the socket, in order. *)
Definition socketCalls (actions : list (Action num)) : list (Action num) :=
  filter (λ action, isSocketCall action = true) actions.

Definition subscriptions (symbols : list string) : list (Action num) :=
  symbols ≫= λ symbol,
    [SubscribeTicker ("t" +:+ symbol); SubscribeCandles ("trade:1m:t" +:+ symbol)].

Definition isUpdateCall (c : Call (num:=num)) : Prop :=
  match c with
  | CallOnUpdateCandles _ _ | CallOnUpdateTickers _ _ => True
  | _ => False
  end.

End further_vocabulary.

(** ** Exact rationals as numbers, and reference moving averages

    The instance at which the development is run on concrete inputs.
    Arithmetic is exact: nothing is rounded to a double and nothing
    overflows. [Infinity] and [NaN] are no rationals, so a division by 0
    has no counterpart here ([Qdiv] gives 0); what is stated at this
    instance about a quotient assumes a divisor that is not 0. *)

(** [x.toFixed(8)] keeps the sign aside and rounds the magnitude to the
    nearest multiple of [10^-8], the larger one on a tie; from [10^21]
    on it gives the digits of the number itself. *)
Definition Q_round8 (x : Q) : Q :=
  Qmake (Qfloor (x * inject_Z (10 ^ 8) + (1 # 2))%Q) (10 ^ 8).

Definition Q_toFixed8 (x : Q) : Q :=
  let magnitude := if Qle_bool 0 x then x else (- x)%Q in
  if Qle_bool (inject_Z (10 ^ 21)) magnitude then x
  else if Qle_bool 0 x then Q_round8 x else (- Q_round8 (- x))%Q.

Definition Q_gt (a b : Q) : bool := negb (Qle_bool a b).
Definition Q_lt (a b : Q) : bool := negb (Qle_bool b a).

Lemma Q_eqb_not_gt (a b : Q) : Qeq_bool a b = true → Q_gt a b = false.
Proof.
  intros Heq%Qeq_bool_iff. unfold Q_gt.
  apply negb_false_iff, Qle_bool_iff. rewrite Heq. apply Qle_refl.
Qed.

Lemma Q_eqb_not_lt (a b : Q) : Qeq_bool a b = true → Q_lt a b = false.
Proof.
  intros Heq%Qeq_bool_iff. unfold Q_lt.
  apply negb_false_iff, Qle_bool_iff. rewrite Heq. apply Qle_refl.
Qed.

Lemma Q_lt_not_gt (a b : Q) : Q_lt a b = true → Q_gt a b = false.
Proof.
  unfold Q_lt, Q_gt. intros Hlt%negb_true_iff.
  apply negb_false_iff, Qle_bool_iff.
  destruct (Qlt_le_dec a b) as [Hab|Hba]; [by apply Qlt_le_weak|].
  apply Qle_bool_iff in Hba. congruence.
Qed.

Global Instance Q_JSNumber : JSNumber Q := {|
  num_zero := 0%Q; num_one := 1%Q; num_neg_one := (-1)%Q;
  nadd := Qplus; nsub := Qminus; nmul := Qmult; ndiv := Qdiv;
  ngt := Q_gt; nlt := Q_lt; neqb := Qeq_bool;
  toFixed8 := Q_toFixed8;
  neqb_not_gt := Q_eqb_not_gt;
  neqb_not_lt := Q_eqb_not_lt;
  nlt_not_gt := Q_lt_not_gt;
|}.

Definition Q_sum (values : list Q) : Q := foldl Qplus 0%Q values.

Definition Q_mean (period : nat) (window : list Q) : Q :=
  Qred (Q_sum window / inject_Z (Z.of_nat period))%Q.

(** The number of decimal digits of a positive integer. *)
Fixpoint digits_from (fuel : nat) (n : Z) : Z :=
  match fuel with
  | O => 0
  | S fuel' => if (n <? 10)%Z then 1 else 1 + digits_from fuel' (n / 10)
  end.

Definition digits (n : Z) : Z := digits_from (S (Z.to_nat (Z.log2 n))) n.

(** [10^k] for an integer [k] of either sign. *)
Definition Q_pow10 (k : Z) : Q :=
  if (0 <=? k)%Z then inject_Z (10 ^ k) else (1 / inject_Z (10 ^ (- k)))%Q.

(** The decimal exponent of a positive rational [x]: the [e] with
    [10^e <= x < 10^(e+1)]. It is the difference of the digit counts of
    numerator and denominator, or one less. *)
Definition Q_exponent (x : Q) : Z :=
  let e := (digits (Qnum x) - digits (Zpos (Qden x)))%Z in
  if Qle_bool (Q_pow10 e) x then e else (e - 1)%Z.

(** [parseFloat(x.toPrecision(8))], the [format] of the library under
    [setConfig('precision', 8)]: the sign is kept aside and the magnitude
    rounded to 8 significant digits, the larger one on a tie; 0 stays 0. *)
Definition Q_toPrecision8 (x : Q) : Q :=
  if Qeq_bool x 0 then 0%Q
  else
    let magnitude := if Qle_bool 0 x then x else (- x)%Q in
    let scale := Q_pow10 (7 - Q_exponent magnitude) in
    let rounded :=
      Qred (inject_Z (Qfloor (magnitude * scale + (1 # 2))) / scale)%Q in
    if Qle_bool 0 x then rounded else (- rounded)%Q.

(** Simple moving average, for a period of at least 1: one value per full
    window of [period] prices, each passed through [format]. *)
Definition Q_SMA (period : nat) (values : list Q) : list Q :=
  (λ i, Q_toPrecision8 (Q_mean period (take period (drop i values))))
    <$> seq 0 (S (length values) - period).

Fixpoint Q_EMA_from (k prev : Q) (ticks : list Q) : list Q :=
  match ticks with
  | [] => [prev]
  | tick :: ticks' =>
      prev :: Q_EMA_from k (Qred ((tick - prev) * k + prev)%Q) ticks'
  end.

(** Exponential moving average, for a period of at least 1. The first
    value comes with the [period]-th price: it is the simple moving
    average of the first [period] prices as [SMA.nextValue] returns it,
    that is, formatted; when that is 0 the library does not take it for
    a value and starts from [(tick - 0) * k + 0] on the same price. Each
    later value is [(tick - prev) * k + prev] with [k = 2 / (period + 1)],
    on the unformatted [prev]; every value is formatted on its way out. *)
Definition Q_EMA (period : nat) (values : list Q) : list Q :=
  if bool_decide (length values < period) then []
  else
    let k := (2 / inject_Z (Z.of_nat period + 1))%Q in
    let seed := Q_toPrecision8 (Q_mean period (take period values)) in
    let start :=
      if Qeq_bool seed 0
      then Qred ((default 0 (last (take period values)) - 0) * k + 0)%Q
      else seed in
    Q_toPrecision8 <$> Q_EMA_from k start (drop period values).

Global Instance Q_Indicators : Indicators Q := {|
  EMA_calculate := Q_EMA;
  SMA_calculate := Q_SMA;
|}.

(** ** IEEE doubles as numbers

    JavaScript numbers are binary64 floats. [toFixed8] is left to the
    runtime. *)

Definition float_gt (a b : float) : bool := PrimFloat.ltb b a.

Lemma SFcompare_swap (a b : spec_float) :
  SFcompare b a = CompOpp <$> SFcompare a b.
Proof.
  destruct a as [sa|sa| |sa ma ea], b as [sb|sb| |sb mb eb];
    try destruct sa; try destruct sb; try reflexivity; cbn.
  - rewrite (Z.compare_antisym ea eb).
    destruct (ea ?= eb)%Z; cbn; try reflexivity.
    change (Pos.compare_cont Eq mb ma) with (mb ?= ma)%positive.
    change (Pos.compare_cont Eq ma mb) with (ma ?= mb)%positive.
    by rewrite (Pos.compare_antisym ma mb).
  - rewrite (Z.compare_antisym ea eb).
    destruct (ea ?= eb)%Z; cbn; try reflexivity.
    change (Pos.compare_cont Eq mb ma) with (mb ?= ma)%positive.
    change (Pos.compare_cont Eq ma mb) with (ma ?= mb)%positive.
    by rewrite (Pos.compare_antisym ma mb).
Qed.

Lemma float_eqb_not_gt (a b : float) :
  PrimFloat.eqb a b = true → float_gt a b = false.
Proof.
  unfold float_gt. rewrite FloatAxioms.eqb_spec, FloatAxioms.ltb_spec.
  unfold SFeqb, SFltb. rewrite (SFcompare_swap (Prim2SF a) (Prim2SF b)).
  by destruct (SFcompare _ _) as [[]|].
Qed.

Lemma float_eqb_not_lt (a b : float) :
  PrimFloat.eqb a b = true → PrimFloat.ltb a b = false.
Proof.
  rewrite FloatAxioms.eqb_spec, FloatAxioms.ltb_spec. unfold SFeqb, SFltb.
  by destruct (SFcompare _ _) as [[]|].
Qed.

Lemma float_lt_not_gt (a b : float) :
  PrimFloat.ltb a b = true → float_gt a b = false.
Proof.
  unfold float_gt. rewrite !FloatAxioms.ltb_spec. unfold SFltb.
  rewrite (SFcompare_swap (Prim2SF a) (Prim2SF b)).
  by destruct (SFcompare _ _) as [[]|].
Qed.

Definition float_JSNumber (toFixed8 : float → float) : JSNumber float := {|
  num_zero := 0%float; num_one := 1%float; num_neg_one := (-1)%float;
  nadd := PrimFloat.add; nsub := PrimFloat.sub;
  nmul := PrimFloat.mul; ndiv := PrimFloat.div;
  ngt := float_gt; nlt := PrimFloat.ltb; neqb := PrimFloat.eqb;
  toFixed8 := toFixed8;
  neqb_not_gt := float_eqb_not_gt;
  neqb_not_lt := float_eqb_not_lt;
  nlt_not_gt := float_lt_not_gt;
|}.

(** ** Example data *)

(** A rising series of 25 closes, and a series too short for any period. *)
Definition rising : list Q := (λ i, inject_Z (Z.of_nat i)) <$> seq 1 25.
Definition short : list Q := [100; 101; 102]%Q.

(** A flat candle stamped [t] that closes at [closing]. *)
Definition candleAt (t : Z) (closing : Q) : Candle Q :=
  {| mts := Some t; open := closing; close := closing; high := closing;
     low := closing; vol := 1%Q |}.

(** A bot holding one order at price 100, amount 2, with last close 110. *)
Definition position (side : Signal) : SimpleBot Q :=
  {| symbols := ["BTCUSD"]; maxSpendInUSD := 1000%Q;
     candles := {["BTCUSD" := Series [candleAt 1 110%Q]]};
     tickers := ∅; tickers_proto := None;
     myOrders := [ {| order_symbol := "BTCUSD"; order_signal := side;
                      order_price := 100%Q; order_amount := 2%Q;
                      order_timestamp := 0 |} ] |}.

(** The same position held in doubles. *)
Definition floatPosition (side : Signal) : SimpleBot float :=
  {| symbols := ["BTCUSD"]; maxSpendInUSD := 1000%float;
     candles := {["BTCUSD" := Series [ {| mts := Some 1%Z; open := 110%float;
                                          close := 110%float; high := 110%float;
                                          low := 110%float; vol := 1%float |} ]]};
     tickers := ∅; tickers_proto := None;
     myOrders := [ {| order_symbol := "BTCUSD"; order_signal := side;
                      order_price := 100%float; order_amount := 2%float;
                      order_timestamp := 0 |} ] |}.

(** The 25 rising closes as candles of [symbol], and a bot that holds
    those of BTCUSD and a ticker but has not traded yet. *)
Definition risingSticksOf (symbol : string) : list (Stick Q) :=
  (λ i, {| stick_symbol := symbol;
           stick_candle := candleAt (Z.of_nat i) (inject_Z (Z.of_nat i)) |})
    <$> seq 1 25.

Definition risingSticks : list (Stick Q) := risingSticksOf "BTCUSD".

Definition ready : SimpleBot Q :=
  (forEach risingSticks pushCandle
     (with_tickers {["BTCUSD" := {| bid := Some 100%Q; ask := Some 101%Q |}]}
                   (constructor ["BTCUSD"] 1000%Q))).1.

(** A snapshot delivered newest first, with one entry that is no candle,
    and the same three candles oldest first. *)
Definition newestFirst : list (Raw (Candle Q)) :=
  [RawObject (candleAt 3 30%Q); RawPrimitive; RawObject (candleAt 2 20%Q);
   RawObject (candleAt 1 10%Q)].

Definition oldestFirst : list (Raw (Candle Q)) :=
  [RawObject (candleAt 1 10%Q); RawObject (candleAt 2 20%Q);
   RawObject (candleAt 3 30%Q)].

(** A bot as [new SimpleBot(['BTCUSD'], 1000)] makes it, and the values
    handed for [Math.random()] and [Date.now()] in the examples. *)
Definition fresh : SimpleBot Q := constructor ["BTCUSD"] 1000%Q.

Definition draw : string → Q * Z := λ _, ((1 # 2)%Q, 1700000000000%Z).

(** * Lemmas *)

(** ** The model on concrete inputs *)

Example formatSymbol_strips_prefix :
  formatSymbol (Some "tBTCUSD") = Normal "BTCUSD" ∧
  formatSymbol (Some "BTCUSD") = Normal "BTCUSD" ∧
  formatSymbol None = Throw TypeError.
Proof. by vm_compute. Qed.

Example split_channel_key :
  split ":" "trade:1m:tBTCUSD" = ["trade"; "1m"; "tBTCUSD"] ∧
  split ":" "tBTCUSD" = ["tBTCUSD"] ∧
  split ":" "a::b" = ["a"; ""; "b"] ∧
  split ":" "" = [""].
Proof. by vm_compute. Qed.

Example object_keys_order :
  object_keys ["ETHUSD"; "10"; "BTCUSD"; "2"; "ETHUSD"; "007"] =
  ["2"; "10"; "ETHUSD"; "BTCUSD"; "007"].
Proof. by vm_compute. Qed.

Example getCurrentPoL_in_doubles (toFixed8 : float → float) :
  getCurrentPoL (JSNumber0:=float_JSNumber toFixed8) (floatPosition Buy)
    = (floatPosition Buy, Normal 20%float) ∧
  getCurrentPoL (JSNumber0:=float_JSNumber toFixed8) (floatPosition Sell)
    = (floatPosition Sell, Normal (-20)%float).
Proof. split; by vm_compute. Qed.

(** A ticker, then a snapshot of 25 rising candles delivered newest
    first: one buy order at the last close, and a mark-to-market of 0. *)
Example rising_snapshot_buys :
  let snapshot := reverse (RawObject ∘ stick_candle <$> risingSticks) in
  let bot :=
    run [(EvTicker (Some "tBTCUSD")
            (RawObject {| bid := Some 100%Q; ask := Some 101%Q |}), draw);
         (EvCandle (Array snapshot) (Some "trade:1m:tBTCUSD"), draw)]
        fresh in
  (∃ order,
     myOrders bot = [order] ∧ order_symbol order = "BTCUSD" ∧
     order_signal order = Buy ∧ order_price order = 25%Q) ∧
  (∃ value, getCurrentPoL bot = (bot, Normal value) ∧ (value == 0)%Q) ∧
  candles bot !! "BTCUSD" = Some (Series (stick_candle <$> risingSticks)).
Proof.
  split_and!.
  - eexists. by vm_compute.
  - eexists. split; [by vm_compute|]. by vm_compute.
  - by vm_compute.
Qed.

(** What a plain object gives under the names of [Object.prototype]: on
    a bot that has received nothing, [this.candles['constructor']] and
    [this.tickers['toString']] are there. A ticker for ['__proto__']
    creates no property: its prices become the prototype of
    [this.tickers] and answer for [bid] and [ask], truthy when not 0. *)
Example plain_object_reads :
  readCandles fresh "constructor" = Some Member ∧
  readCandles fresh "__proto__" = Some Member ∧
  readCandles fresh "BTCUSD" = None ∧
  hasTicker fresh "toString" = true ∧
  hasTicker fresh "BTCUSD" = false ∧
  hasTicker fresh "bid" = false ∧
  (let bot := (onUpdateTickers "__proto__" {| bid := Some 5%Q; ask := Some 0%Q |}
                 fresh).1 in
   tickers bot = ∅ ∧ hasTicker bot "bid" = true ∧ hasTicker bot "ask" = false ∧
   hasTicker bot "__proto__" = true ∧ hasTicker bot "BTCUSD" = false).
Proof. by vm_compute. Qed.

(** ** The signal engine *)

Section signal_facts.
Context {num : Type} `{!JSNumber num, !Indicators num}.
Implicit Types (values : list num) (calculate : nat → list num → list num).






Lemma ema_unfold values :
  ema values = if bool_decide (length values = 0) then Unknown
               else verdict (ema_counters values).
Proof. reflexivity. Qed.

Lemma sma_unfold values :
  sma values = if bool_decide (length values = 0) then Unknown
               else verdict (sma_counters values).
Proof. reflexivity. Qed.




Lemma ema_nonempty values : values ≠ [] → ema values = verdict (ema_counters values).
Proof.
  intros Hne. rewrite ema_unfold. case_bool_decide as Hlen; [|done].
  by apply nil_length_inv in Hlen.
Qed.

Lemma sma_nonempty values : values ≠ [] → sma values = verdict (sma_counters values).
Proof.
  intros Hne. rewrite sma_unfold. case_bool_decide as Hlen; [|done].
  by apply nil_length_inv in Hlen.
Qed.



(** A signal that makes [checkTrade] act comes from a non-empty series. *)
Lemma signal_acts_nonempty values :
  signal values = Buy ∨ signal values = Sell → values ≠ [].
Proof. intros Hs ->. by destruct Hs. Qed.


(** An average that is not there casts no vote. *)
Lemma period_vote_unavailable calculate values period :
  calculate period values = [] → period_vote calculate values period = NoVote.
Proof. intros Hma. unfold period_vote. by rewrite Hma. Qed.

Lemma count_vote_unavailable calculate values period counters :
  calculate period values = [] →
  count_vote calculate values (last values) counters period = counters.
Proof. intros Hma. unfold count_vote. by rewrite Hma. Qed.
End signal_facts.

(** ** The reference moving averages *)

Lemma Q_SMA_short (period : nat) (values : list Q) :
  length values < period → Q_SMA period values = [].
Proof.
  intros Hlt. unfold Q_SMA.
  by replace (S (length values) - period) with 0 by lia.
Qed.

Lemma Q_EMA_short (period : nat) (values : list Q) :
  length values < period → Q_EMA period values = [].
Proof. intros Hlt. unfold Q_EMA. by rewrite bool_decide_eq_true_2. Qed.

Lemma Q_Indicators_short (period : nat) (values : list Q) :
  length values < period →
  EMA_calculate period values = [] ∧ SMA_calculate period values = [].
Proof. intros Hlt. split; [by apply Q_EMA_short|by apply Q_SMA_short]. Qed.

(** ** Reads of the plain objects *)

Section read_facts.
Context {num : Type} `{!JSNumber num, !Indicators num}.
Implicit Types (this : SimpleBot num) (order : Order num).

Lemma inherited_proto : inherited "__proto__" = true.
Proof. by vm_compute. Qed.

Global Instance slot_member_dec (slot : option (Slot num)) :
  Decision (slot = Some Member).
Proof. destruct slot as [[series|]|]; [right|left|right]; done. Defined.

Lemma readCandles_Series this (symbol : string) (series : list (Candle num)) :
  readCandles this symbol = Some (Series series) ↔
  candles this !! symbol = Some (Series series).
Proof.
  unfold readCandles. destruct (candles this !! symbol) as [slot|]; [done|].
  by destruct (inherited symbol).
Qed.

Lemma readCandles_None this (symbol : string) :
  readCandles this symbol = None ↔
  candles this !! symbol = None ∧ inherited symbol = false.
Proof.
  unfold readCandles. destruct (candles this !! symbol) as [slot|].
  - split; [done|]. by intros [? _].
  - destruct (inherited symbol); split; try done. by intros [_ ?].
Qed.

Lemma readCandles_Member this (symbol : string) :
  readCandles this symbol = Some Member ↔
  candles this !! symbol = Some Member ∨
  candles this !! symbol = None ∧ inherited symbol = true.
Proof.
  unfold readCandles. destruct (candles this !! symbol) as [slot|].
  - split; [by left|]. by intros [?|[? _]].
  - destruct (inherited symbol); split; try done; [by right|].
    by intros [?|[_ ?]].
Qed.

Lemma readCandles_ext this1 this2 (symbol : string) :
  candles this1 = candles this2 →
  readCandles this1 symbol = readCandles this2 symbol.
Proof. unfold readCandles. by intros ->. Qed.

Lemma hasTicker_ext this1 this2 (symbol : string) :
  tickers this1 = tickers this2 → tickers_proto this1 = tickers_proto this2 →
  hasTicker this1 symbol = hasTicker this2 symbol.
Proof. unfold hasTicker. by intros -> ->. Qed.

(** Where members and arrays are kept apart, what is read under a name is
    a member exactly for the names of [Object.prototype]. *)
Lemma membersApart_read this (symbol : string) :
  membersApart this →
  (readCandles this symbol = Some Member ↔ inherited symbol = true).
Proof.
  intros Hinv. rewrite readCandles_Member. split.
  - intros [Hown|[_ ?]]; [|done]. by apply (Hinv symbol Member).
  - intros Hin. destruct (candles this !! symbol) as [slot|] eqn:Hslot.
    + left. f_equal. by apply (Hinv symbol slot).
    + by right.
Qed.

Lemma marked_ext this1 this2 order :
  candles this1 = candles this2 → marked this1 order ↔ marked this2 order.
Proof. intros Hc. unfold marked. by rewrite (readCandles_ext this1 this2). Qed.

Lemma marked_Series this order (series : list (Candle num)) :
  candles this !! order_symbol order = Some (Series series) → series ≠ [] →
  marked this order.
Proof.
  intros Hseries Hne. unfold marked.
  by rewrite (proj2 (readCandles_Series this _ series) Hseries).
Qed.
End read_facts.

(** ** The ledger *)

Section ledger_facts.
Context {num : Type} `{!JSNumber num, !Indicators num}.
Implicit Types (this : SimpleBot num) (order : Order num).

Lemma formatCandles_close (series : list (Candle num)) :
  ∃ format,
    formatCandles (Series series) = Normal format ∧
    format_close format = close <$> series.
Proof.
  eexists. split; [reflexivity|].
  set (f := λ (format : Format num) (candle : Candle num), _).
  set (init := {| format_open := [] |}).
  enough (∀ format, format_close (foldl f format series)
                    = format_close format ++ (close <$> series)) as Hgen
    by apply (Hgen init).
  induction series as [|candle series IH]; intros format; simpl.
  - by rewrite app_nil_r.
  - rewrite IH. simpl. by rewrite <-app_assoc.
Qed.

Lemma sumChanges_no_data this value order :
  ¬ hasCandleData this order → addChange this value order = Normal value.
Proof.
  unfold hasCandleData, addChange. intros Hno.
  destruct (readCandles this (order_symbol order)); [|done].
  exfalso. by apply Hno.
Qed.

Lemma sumChanges_spec this value (orders : list (Order num)) :
  Forall (marked this) orders →
  ∃ changes : list num,
    Forall2 (λ order change,
               ∃ lastClose',
                 lastClose this (order_symbol order) = Some lastClose' ∧
                 change = nmul (nmul (direction (order_signal order))
                                     (nsub lastClose' (order_price order)))
                               (order_amount order))
            (filter (hasCandleData this) orders) changes ∧
    sumChanges this value orders = Normal (foldl nadd value changes).
Proof.
  intros Hall. revert value.
  induction Hall as [|order orders Hmarked _ IH]; intros value; simpl.
  { exists []. by split; [constructor|]. }
  rewrite filter_cons.
  destruct (decide (hasCandleData this order)) as [[slot Hslot]|Hno].
  - unfold addChange. unfold marked in Hmarked. rewrite Hslot in Hmarked |- *.
    destruct slot as [series|]; [|done].
    destruct (last series) as [lastCandle|] eqn:Hlast.
    2:{ by apply last_None in Hlast. }
    simpl. destruct (IH (nadd value
      (nmul (nmul (direction (order_signal order))
                  (nsub (close lastCandle) (order_price order)))
            (order_amount order)))) as (changes & Hall & Hsum).
    eexists (_ :: changes). split; [|exact Hsum]. constructor; [|done].
    eexists. split; [|done]. unfold lastClose. rewrite Hslot; simpl. by rewrite Hlast.
  - rewrite sumChanges_no_data by done. simpl. apply IH.
Qed.

Lemma getCurrentPoL_normal this :
  Forall (marked this) (myOrders this) →
  ∃ value, getCurrentPoL this = (this, Normal value).
Proof.
  intros Hall. unfold getCurrentPoL.
  destruct (sumChanges_spec this num_zero (myOrders this) Hall) as (? & _ & ->).
  by eexists.
Qed.

Lemma sumChanges_throws this (value : num) (orders : list (Order num)) :
  sumChanges this value orders = Throw TypeError ↔ Exists (λ order, ¬ marked this order) orders.
Proof.
  revert value. induction orders as [|order orders IH]; intros value.
  { split; [done|]. by intros ?%Exists_nil. }
  cbn [sumChanges]. rewrite Exists_cons. unfold addChange, marked at 1.
  destruct (readCandles this (order_symbol order)) as [[series|]|].
  - destruct (last series) as [lastCandle|] eqn:Hlast.
    + cbn. rewrite IH. split; [by right|]. intros [Hbad|?]; [|done].
      destruct Hbad. intros ->. done.
    + apply last_None in Hlast as ->. split; [|done]. intros _. left. by intros ?.
  - split; [|done]. intros _. left. by intros ?.
  - cbn. rewrite IH. split; [by right|]. by intros [Hbad|?]; [destruct Hbad|].
Qed.


End ledger_facts.

(** ** Trades *)

Section trade_facts.
Context {num : Type} `{!JSNumber num, !Indicators num}.
Implicit Types (this : SimpleBot num) (order : Order num).

Lemma checkTrade_not_ready this symbol random now :
  hasTicker this symbol = false ∨ readCandles this symbol = None →
  checkTrade symbol random now this = (this, Normal ()).
Proof.
  unfold checkTrade. intros [->| ->]; [done|].
  by destruct (hasTicker this symbol).
Qed.

Lemma checkTrade_member this symbol random now :
  hasTicker this symbol = true → readCandles this symbol = Some Member →
  checkTrade symbol random now this = (this, Throw TypeError).
Proof. unfold checkTrade. by intros -> ->. Qed.

Lemma checkTrade_quiet this symbol random now series :
  hasTicker this symbol = true →
  candles this !! symbol = Some (Series series) →
  ¬ (signal (close <$> series) = Buy ∨ signal (close <$> series) = Sell) →
  checkTrade symbol random now this =
  (this, sumChanges this num_zero (myOrders this) ≫= λ _, Normal ()).
Proof.
  intros Ht Hc%readCandles_Series Hsig. unfold checkTrade. rewrite Ht, Hc.
  destruct (formatCandles_close series) as (format & -> & ->).
  rewrite bool_decide_eq_false_2 by done.
  unfold mbind, method_bind, getCurrentPoL; simpl.
  by destruct (sumChanges _ _ _).
Qed.

Lemma checkTrade_acts this symbol random now series :
  hasTicker this symbol = true →
  candles this !! symbol = Some (Series series) →
  signal (close <$> series) = Buy ∨ signal (close <$> series) = Sell →
  ∃ lastCandle,
    last series = Some lastCandle ∧
    let this' :=
      with_myOrders
        (myOrders this ++ [orderFor this symbol series lastCandle random now])
        this in
    checkTrade symbol random now this =
    (this', sumChanges this' num_zero (myOrders this') ≫= λ _, Normal ()).
Proof.
  intros Ht Hc%readCandles_Series Hsig.
  assert (close <$> series ≠ []) as Hne by by apply signal_acts_nonempty.
  destruct (last series) as [lastCandle|] eqn:Hlast.
  2:{ apply last_None in Hlast. by subst. }
  exists lastCandle. split; [done|]. intros this'.
  unfold checkTrade. rewrite Ht, Hc.
  destruct (formatCandles_close series) as (format & -> & ->).
  rewrite bool_decide_eq_true_2 by done. rewrite fmap_last, Hlast. simpl.
  unfold mbind, method_bind, placeOrder, getCurrentPoL; simpl.
  fold (orderFor this symbol series lastCandle random now). fold this'.
  by destruct (sumChanges _ _ _).
Qed.

(** The four ways [checkTrade] can go. *)
Lemma checkTrade_cases this symbol :
  (hasTicker this symbol = false ∨ readCandles this symbol = None) ∨
  (hasTicker this symbol = true ∧ readCandles this symbol = Some Member) ∨
  (∃ series,
     hasTicker this symbol = true ∧ candles this !! symbol = Some (Series series) ∧
     ¬ (signal (close <$> series) = Buy ∨ signal (close <$> series) = Sell)) ∨
  (∃ series,
     hasTicker this symbol = true ∧ candles this !! symbol = Some (Series series) ∧
     (signal (close <$> series) = Buy ∨ signal (close <$> series) = Sell)).
Proof.
  destruct (hasTicker this symbol); [|by left; left].
  destruct (readCandles this symbol) as [[series|]|] eqn:Hread;
    [|by right; left|by left; right].
  apply readCandles_Series in Hread. right; right.
  destruct (decide (signal (close <$> series) = Buy ∨
                    signal (close <$> series) = Sell)); eauto 6.
Qed.

Lemma not_actionable_cases this symbol :
  ¬ actionable this symbol →
  (hasTicker this symbol = false ∨ readCandles this symbol = None) ∨
  (hasTicker this symbol = true ∧ readCandles this symbol = Some Member) ∨
  (∃ series,
     hasTicker this symbol = true ∧ candles this !! symbol = Some (Series series) ∧
     ¬ (signal (close <$> series) = Buy ∨ signal (close <$> series) = Sell)).
Proof.
  intros Hno.
  destruct (checkTrade_cases this symbol) as [?|[?|[?|(series & Ht & Hc & Ha)]]];
    [tauto..|].
  destruct Hno. split; [done|]. exists series. split_and!; [done| |done].
  intros ->. by apply signal_acts_nonempty in Ha.
Qed.

(** [checkTrade] leaves the candles and the tickers as they are. *)
Lemma checkTrade_stores this symbol random now :
  candles (checkTrade symbol random now this).1 = candles this ∧
  tickers (checkTrade symbol random now this).1 = tickers this ∧
  tickers_proto (checkTrade symbol random now this).1 = tickers_proto this.
Proof.
  destruct (checkTrade_cases this symbol)
    as [Hnr|[[Ht Hm]|[(series & Ht & Hc & Hq)|(series & Ht & Hc & Ha)]]].
  - by rewrite checkTrade_not_ready.
  - by rewrite checkTrade_member.
  - by erewrite checkTrade_quiet.
  - destruct (checkTrade_acts this symbol random now _ Ht Hc Ha)
      as (lastCandle & _ & ->). done.
Qed.

Lemma checkTrade_ledger this (symbol : string) (random : num) (now : Z) :
  ∃ new,
    myOrders (checkTrade symbol random now this).1 = myOrders this ++ new ∧
    (new = [] ∨ ∃ order, new = [order] ∧ placedFor this symbol order).
Proof.
  destruct (checkTrade_cases this symbol)
    as [Hnr|[[Ht Hm]|[(series & Ht & Hc & Hq)|(series & Ht & Hc & Ha)]]].
  - exists []. rewrite checkTrade_not_ready by done. by rewrite app_nil_r; auto.
  - exists []. rewrite checkTrade_member by done. by rewrite app_nil_r; auto.
  - exists []. erewrite checkTrade_quiet by done. by rewrite app_nil_r; auto.
  - destruct (checkTrade_acts this symbol random now _ Ht Hc Ha)
      as (lastCandle & Hlast & ->).
    eexists [_]. split; [done|]. right. eexists. split; [done|].
    split_and!; [done|done|done|]. by exists series, lastCandle.
Qed.

(** An order [checkTrade] places can be marked, like those before it. *)
Lemma checkTrade_marked this symbol random now :
  Forall (marked this) (myOrders this) →
  Forall (marked (checkTrade symbol random now this).1)
         (myOrders (checkTrade symbol random now this).1).
Proof.
  intros Hall.
  destruct (checkTrade_ledger this symbol random now)
    as (new & Hledger & Hnew).
  destruct (checkTrade_stores this symbol random now) as (Hc & _).
  rewrite Hledger. apply Forall_app. split.
  - eapply Forall_impl; [exact Hall|]. intros order. by apply marked_ext.
  - destruct Hnew as [->|(order & -> & Hsym & _ & _ & series & lastCandle & Hs & Hl & _)];
      [constructor|].
    constructor; [|constructor].
    apply (marked_Series _ _ series); [by rewrite Hc, Hsym|].
    intros ->. done.
Qed.

(** [checkTrade] completes when what it reads under the symbol is no
    member of [Object.prototype] and every order can be marked. *)
Lemma checkTrade_normal this symbol random now :
  readCandles this symbol ≠ Some Member →
  Forall (marked this) (myOrders this) →
  (checkTrade symbol random now this).2 = Normal ().
Proof.
  intros Hread Hall.
  pose proof (checkTrade_marked this symbol random now Hall) as Hall'.
  destruct (checkTrade_cases this symbol)
    as [Hnr|[[Ht Hm]|[(series & Ht & Hc & Hq)|(series & Ht & Hc & Ha)]]].
  - by rewrite checkTrade_not_ready.
  - done.
  - erewrite checkTrade_quiet by done.
    by destruct (sumChanges_spec this num_zero (myOrders this) Hall) as (? & _ & ->).
  - destruct (checkTrade_acts this symbol random now _ Ht Hc Ha)
      as (lastCandle & _ & Heq). rewrite Heq in Hall' |- *. cbn [fst snd] in *.
    set (this' := with_myOrders _ this) in *.
    by destruct (sumChanges_spec this' num_zero (myOrders this') Hall')
      as (? & _ & ->).
Qed.

Lemma forEach_checkTrade_stores this (keys : list string) (env : string → num * Z) :
  let result :=
    forEach keys (λ symbol, checkTrade symbol (env symbol).1 (env symbol).2) this in
  candles result.1 = candles this ∧ tickers result.1 = tickers this ∧
  tickers_proto result.1 = tickers_proto this.
Proof.
  revert this. induction keys as [|symbol keys IH]; intros this; [done|].
  simpl. unfold mbind, method_bind.
  pose proof (checkTrade_stores this symbol (env symbol).1 (env symbol).2)
    as (Hc & Ht & Hp).
  destruct (checkTrade symbol _ _ this) as [this' [[]|e]]; [|done]. simpl in *.
  destruct (IH this') as (-> & -> & ->). done.
Qed.

Lemma forEach_checkTrade_normal this (keys : list string) (env : string → num * Z) :
  (∀ symbol, symbol ∈ keys → readCandles this symbol ≠ Some Member) →
  Forall (marked this) (myOrders this) →
  let result :=
    forEach keys (λ symbol, checkTrade symbol (env symbol).1 (env symbol).2) this in
  result.2 = Normal () ∧ Forall (marked result.1) (myOrders result.1).
Proof.
  revert this. induction keys as [|symbol keys IH]; intros this Hkeys Hall; [done|].
  simpl. unfold mbind, method_bind.
  pose proof (checkTrade_normal this symbol (env symbol).1 (env symbol).2
                (Hkeys symbol ltac:(by left)) Hall) as Hn.
  pose proof (checkTrade_marked this symbol (env symbol).1 (env symbol).2 Hall)
    as Hall'.
  pose proof (checkTrade_stores this symbol (env symbol).1 (env symbol).2)
    as (Hc & _).
  destruct (checkTrade symbol _ _ this) as [this' [[]|e]]; [|done]. simpl in *.
  apply IH; [|done]. intros symbol' Hin.
  rewrite (readCandles_ext this' this) by done. apply Hkeys. by right.
Qed.

Lemma forEach_checkTrade_ledger this (keys : list string) (env : string → num * Z) :
  let result :=
    forEach keys (λ symbol, checkTrade symbol (env symbol).1 (env symbol).2) this in
  ∃ new,
    myOrders result.1 = myOrders this ++ new ∧
    (order_symbol <$> new) `sublist_of` keys ∧
    Forall (λ order, placedFor this (order_symbol order) order) new.
Proof.
  revert this. induction keys as [|symbol keys IH]; intros this.
  { exists []. by rewrite app_nil_r. }
  cbn [forEach]. unfold mbind, method_bind.
  destruct (checkTrade_ledger this symbol (env symbol).1 (env symbol).2)
    as (new1 & Hledger & Hnew1).
  pose proof (checkTrade_stores this symbol (env symbol).1 (env symbol).2)
    as (Hc & Ht & Hp).
  assert ((order_symbol <$> new1) `sublist_of` [symbol] ∧
          Forall (λ order, placedFor this (order_symbol order) order) new1)
    as [Hsub1 Hall1].
  { destruct Hnew1 as [->|(order & -> & Hplaced)].
    - split; [apply sublist_nil_l|constructor].
    - pose proof Hplaced as [Hsym _]. cbn. rewrite Hsym. split; [done|].
      constructor; [by rewrite Hsym|constructor]. }
  destruct (checkTrade symbol _ _ this) as [this' [[]|e]]; cbn [fst snd] in *.
  - destruct (IH this') as (new2 & Hledger2 & Hsub2 & Hall2).
    exists (new1 ++ new2). rewrite Hledger2, Hledger, <-app_assoc.
    split; [done|]. split.
    + rewrite fmap_app. change (symbol :: keys) with ([symbol] ++ keys).
      by apply sublist_app.
    + apply Forall_app. split; [done|].
      eapply Forall_impl; [exact Hall2|]. intros order.
      unfold placedFor. rewrite Hc.
      by rewrite (hasTicker_ext this' this).
  - exists new1. split; [done|]. split; [|done].
    change (symbol :: keys) with ([symbol] ++ keys).
    by apply sublist_inserts_r.
Qed.
End trade_facts.

(** ** The symbols checked after an update *)

Global Instance index_le_total : Total index_le.
Proof. intros k1 k2. unfold index_le. lia. Qed.

Lemma first_occurrences_elem_of (seen ks : list string) (k : string) :
  k ∈ first_occurrences seen ks ↔ k ∈ ks ∧ k ∉ seen.
Proof.
  revert seen. induction ks as [|k' ks IH]; intros seen; cbn [first_occurrences].
  { split; [by intros ?%elem_of_nil|by intros [?%elem_of_nil _]]. }
  case_bool_decide as Hseen.
  - rewrite IH, elem_of_cons. split; [tauto|].
    intros [[->|?] ?]; tauto.
  - rewrite !elem_of_cons, IH, elem_of_cons. split.
    + intros [->|(? & Hnot)]; tauto.
    + intros [[->|Hin] Hnot]; [by left|].
      destruct (decide (k = k')) as [->|Hne]; [by left|]. right. tauto.
Qed.

Lemma first_occurrences_NoDup (seen ks : list string) :
  NoDup (first_occurrences seen ks).
Proof.
  revert seen. induction ks as [|k ks IH]; intros seen; cbn [first_occurrences].
  { constructor. }
  case_bool_decide; [done|]. apply NoDup_cons. split; [|done].
  rewrite first_occurrences_elem_of, elem_of_cons. tauto.
Qed.

Lemma first_occurrences_snoc (seen ks : list string) (k : string) :
  first_occurrences seen (ks ++ [k]) =
  first_occurrences seen ks ++ (if bool_decide (k ∈ seen ++ ks) then [] else [k]).
Proof.
  revert seen. induction ks as [|k' ks IH]; intros seen.
  { rewrite app_nil_r. cbn [app first_occurrences]. by case_bool_decide. }
  cbn [app first_occurrences]. case_bool_decide as Hseen; rewrite IH.
  - rewrite (bool_decide_ext (k ∈ seen ++ ks) (k ∈ seen ++ k' :: ks)); [done|].
    rewrite !elem_of_app, elem_of_cons. split; [tauto|].
    intros [?|[->|?]]; tauto.
  - rewrite (bool_decide_ext (k ∈ (k' :: seen) ++ ks) (k ∈ seen ++ k' :: ks));
      [done|].
    rewrite !elem_of_app, !elem_of_cons. tauto.
Qed.

Lemma filter_not_index (ks : list string) :
  filter (λ k, array_index k = None) ks =
  filter (λ k, ¬ is_Some (array_index k)) ks.
Proof.
  apply list_filter_iff. intros k. rewrite eq_None_not_Some. done.
Qed.

Lemma object_keys_Permutation (assigned : list string) :
  object_keys assigned ≡ₚ first_occurrences [] assigned.
Proof.
  unfold object_keys. cbv zeta.
  rewrite merge_sort_Permutation, filter_not_index.
  apply filter_app_complement.
Qed.

Lemma object_keys_NoDup (assigned : list string) : NoDup (object_keys assigned).
Proof. rewrite object_keys_Permutation. apply first_occurrences_NoDup. Qed.

Lemma object_keys_elem_of (assigned : list string) (k : string) :
  k ∈ object_keys assigned ↔ k ∈ assigned.
Proof.
  rewrite object_keys_Permutation, first_occurrences_elem_of.
  split; [by intros [? _]|]. intros ?. split; [done|]. by intros ?%elem_of_nil.
Qed.

(** ** The candle store *)

Section store_facts.
Context {num : Type} `{!JSNumber num, !Indicators num}.
Implicit Types (this : SimpleBot num) (stick : Stick num).

(** [pushCandle], by what is read under the symbol of the stick. *)
Lemma pushCandle_spec this stick :
  let symbol := stick_symbol stick in
  pushCandle stick this =
  match readCandles this symbol with
  | Some (Series series) =>
      (with_candles
         (<[symbol := Series (series ++ [stick_candle stick])]> (candles this)) this,
       Normal ())
  | None =>
      (with_candles (<[symbol := Series [stick_candle stick]]> (candles this)) this,
       Normal ())
  | Some Member =>
      (if bool_decide (symbol = "__proto__" ∧ candles this !! symbol = None)
       then this
       else with_candles (<[symbol := Member]> (candles this)) this,
       Throw TypeError)
  end.
Proof.
  intros symbol. unfold pushCandle. fold symbol.
  destruct (readCandles this symbol) as [[series|]|] eqn:Hread; cbn [default].
  - apply readCandles_Series in Hread.
    rewrite bool_decide_eq_false_2 by (intros [_ ?]; congruence).
    unfold readCandles at 1. cbn [candles with_candles].
    rewrite lookup_insert_eq. unfold with_candles, id. cbn.
    by rewrite insert_insert_eq.
  - case_bool_decide as Hproto; [by rewrite Hread|].
    unfold readCandles at 1. cbn [candles with_candles].
    by rewrite lookup_insert_eq.
  - apply readCandles_None in Hread as [Hown Hname].
    rewrite bool_decide_eq_false_2.
    2:{ intros [Heq _]. rewrite Heq, inherited_proto in Hname. done. }
    unfold readCandles at 1. cbn [candles with_candles].
    rewrite lookup_insert_eq. unfold with_candles, id. cbn.
    by rewrite insert_insert_eq.
Qed.

(** A stick whose symbol reads a member of [Object.prototype] cannot be
    pushed; every other stick is appended to the array of its symbol. *)
Lemma pushCandle_throws this stick :
  readCandles this (stick_symbol stick) = Some Member →
  (pushCandle stick this).2 = Throw TypeError ∧
  (∀ symbol, readCandles (pushCandle stick this).1 symbol = readCandles this symbol) ∧
  (∀ symbol, symbol ≠ stick_symbol stick →
             candles (pushCandle stick this).1 !! symbol = candles this !! symbol) ∧
  (∀ symbol series,
     candles (pushCandle stick this).1 !! symbol = Some (Series series) ↔
     candles this !! symbol = Some (Series series)).
Proof.
  intros Hread. pose proof (pushCandle_spec this stick) as Hspec.
  cbv zeta in Hspec. rewrite Hread in Hspec. rewrite Hspec. cbn [fst snd].
  case_bool_decide as Hproto; [done|]. split; [done|].
  assert (∀ symbol, symbol ≠ stick_symbol stick →
            candles (with_candles (<[stick_symbol stick := Member]> (candles this)) this)
              !! symbol = candles this !! symbol) as Hother.
  { intros symbol Hne. cbn. by rewrite lookup_insert_ne. }
  split_and!; [|done|].
  - intros symbol. destruct (decide (symbol = stick_symbol stick)) as [->|Hne].
    + rewrite Hread. unfold readCandles. cbn. by rewrite lookup_insert_eq.
    + unfold readCandles. by rewrite Hother.
  - intros symbol series. destruct (decide (symbol = stick_symbol stick)) as [->|Hne].
    + cbn. rewrite lookup_insert_eq. rewrite <-readCandles_Series, Hread. done.
    + by rewrite Hother.
Qed.

Lemma pushCandle_pushes this stick :
  readCandles this (stick_symbol stick) ≠ Some Member →
  pushCandle stick this =
  (with_candles
     (<[stick_symbol stick :=
          Series (seriesOf this (stick_symbol stick) ++ [stick_candle stick])]>
        (candles this)) this,
   Normal ()).
Proof.
  intros Hread. pose proof (pushCandle_spec this stick) as Hspec.
  cbv zeta in Hspec. rewrite Hspec. unfold seriesOf.
  destruct (readCandles this (stick_symbol stick)) as [[series|]|] eqn:Hslot.
  - apply readCandles_Series in Hslot. by rewrite Hslot.
  - done.
  - apply readCandles_None in Hslot as [-> _]. done.
Qed.

Lemma pushCandle_other this stick :
  tickers (pushCandle stick this).1 = tickers this ∧
  tickers_proto (pushCandle stick this).1 = tickers_proto this ∧
  myOrders (pushCandle stick this).1 = myOrders this.
Proof.
  pose proof (pushCandle_spec this stick) as Hspec. cbv zeta in Hspec.
  rewrite Hspec. destruct (readCandles this (stick_symbol stick)) as [[series|]|];
    try done.
  by case_bool_decide.
Qed.

Lemma pushCandle_read_other this stick (symbol : string) :
  symbol ≠ stick_symbol stick →
  readCandles (pushCandle stick this).1 symbol = readCandles this symbol.
Proof.
  intros Hne.
  destruct (decide (readCandles this (stick_symbol stick) = Some Member))
    as [Hm|Hok].
  - by apply pushCandle_throws.
  - rewrite pushCandle_pushes by done. unfold readCandles. cbn.
    by rewrite lookup_insert_ne.
Qed.

(** The invariants of the store under [pushCandle]. *)
Lemma pushCandle_candlesNonEmpty this stick :
  candlesNonEmpty this → candlesNonEmpty (pushCandle stick this).1.
Proof.
  intros Hinv symbol series.
  destruct (decide (readCandles this (stick_symbol stick) = Some Member))
    as [Hm|Hok].
  - destruct (pushCandle_throws this stick Hm) as (_ & _ & _ & ->). apply Hinv.
  - rewrite pushCandle_pushes by done. cbn. rewrite lookup_insert.
    case_decide; [|by apply Hinv].
    intros [= <-]. by destruct (seriesOf _ _).
Qed.

Lemma pushCandle_membersApart this stick :
  membersApart this → membersApart (pushCandle stick this).1.
Proof.
  intros Hinv symbol slot.
  destruct (decide (readCandles this (stick_symbol stick) = Some Member))
    as [Hm|Hok].
  - destruct (pushCandle_throws this stick Hm) as (_ & _ & Hother & Hseries).
    destruct (decide (symbol = stick_symbol stick)) as [->|Hne];
      [|rewrite Hother by done; apply Hinv].
    apply (membersApart_read _ _ Hinv) in Hm. intros Hslot.
    destruct slot as [series|]; [|done].
    apply Hseries, Hinv in Hslot. by rewrite Hm in Hslot; destruct Hslot as [_ Habs];
      specialize (Habs eq_refl).
  - rewrite pushCandle_pushes by done. cbn. rewrite lookup_insert.
    case_decide as Heq; [|by apply Hinv]. subst symbol.
    intros [= <-]. split; [done|]. intros Hin.
    by apply (membersApart_read _ _ Hinv) in Hin.
Qed.

Lemma pushCandle_allStamped this stick :
  is_Some (mts (stick_candle stick)) →
  allStamped this → allStamped (pushCandle stick this).1.
Proof.
  intros Hstick Hinv symbol series candle.
  destruct (decide (readCandles this (stick_symbol stick) = Some Member))
    as [Hm|Hok].
  - destruct (pushCandle_throws this stick Hm) as (_ & _ & _ & ->). apply Hinv.
  - rewrite pushCandle_pushes by done. cbn. rewrite lookup_insert.
    case_decide as Heq; [|by apply Hinv]. subst symbol.
    intros [= <-] [Hold| ->%list_elem_of_singleton]%elem_of_app; [|done].
    unfold seriesOf in Hold.
    destruct (candles this !! stick_symbol stick) as [[series|]|] eqn:Hseries;
      [by eapply Hinv|by apply elem_of_nil in Hold..].
Qed.

(** What is stored only grows under [pushCandle]. *)
Lemma pushCandle_grows this stick (symbol : string) :
  (∀ series,
     candles this !! symbol = Some (Series series) →
     ∃ more, candles (pushCandle stick this).1 !! symbol = Some (Series (series ++ more))) ∧
  (candles this !! symbol = Some Member →
   candles (pushCandle stick this).1 !! symbol = Some Member).
Proof.
  destruct (decide (readCandles this (stick_symbol stick) = Some Member))
    as [Hm|Hok].
  - destruct (pushCandle_throws this stick Hm) as (_ & Hread & Hother & Hseries).
    split.
    + intros series Hs. exists []. rewrite app_nil_r. by apply Hseries.
    + intros Hmem. destruct (decide (symbol = stick_symbol stick)) as [->|Hne];
        [|by rewrite Hother].
      specialize (Hread (stick_symbol stick)). unfold readCandles in Hread at 2.
      rewrite Hmem in Hread. apply readCandles_Member in Hread as [?|[Hnone _]]; [done|].
      pose proof (pushCandle_spec this stick) as Hspec. cbv zeta in Hspec.
      rewrite Hm in Hspec. rewrite Hspec in Hnone. cbn [fst] in Hnone.
      case_bool_decide; [congruence|]. cbn in Hnone.
      by rewrite lookup_insert_eq in Hnone.
  - rewrite pushCandle_pushes by done. cbn. rewrite lookup_insert.
    destruct (decide (stick_symbol stick = symbol)) as [<-|Hne].
    + split.
      * intros series Hs. unfold seriesOf. rewrite Hs. by eexists.
      * intros Hmem. destruct Hok. apply readCandles_Member. by left.
    + split; [|done]. intros series Hs. exists []. by rewrite app_nil_r.
Qed.

(** The first loop of [onUpdateCandles]. *)
Lemma forEach_pushCandle_other this (sticks : list (Stick num)) :
  tickers (forEach sticks pushCandle this).1 = tickers this ∧
  tickers_proto (forEach sticks pushCandle this).1 = tickers_proto this ∧
  myOrders (forEach sticks pushCandle this).1 = myOrders this.
Proof.
  revert this. induction sticks as [|stick sticks IH]; intros this; [done|].
  cbn [forEach]. unfold mbind, method_bind.
  pose proof (pushCandle_other this stick) as (Ht & Hp & Ho).
  destruct (pushCandle stick this) as [this' [[]|e]]; cbn [fst] in *; [|done].
  destruct (IH this') as (-> & -> & ->). done.
Qed.

(** A property of the store that [pushCandle] keeps is kept by the loop,
    whether it completes or not. *)
Lemma forEach_pushCandle_keeps (P : SimpleBot num → Prop)
    (Q : Stick num → Prop) (sticks : list (Stick num)) this :
  (∀ bot stick, Q stick → P bot → P (pushCandle stick bot).1) →
  Forall Q sticks → P this → P (forEach sticks pushCandle this).1.
Proof.
  intros Hstep Hall. revert this.
  induction Hall as [|stick sticks Hstick _ IH]; intros this HP; [done|].
  cbn [forEach]. unfold mbind, method_bind.
  pose proof (Hstep this stick Hstick HP) as HP'.
  destruct (pushCandle stick this) as [this' [[]|e]]; cbn [fst] in *; [|done].
  by apply IH.
Qed.

Lemma forEach_pushCandle_candlesNonEmpty this (sticks : list (Stick num)) :
  candlesNonEmpty this → candlesNonEmpty (forEach sticks pushCandle this).1.
Proof.
  apply (forEach_pushCandle_keeps candlesNonEmpty (λ _, True)).
  - intros bot stick _. apply pushCandle_candlesNonEmpty.
  - by apply Forall_true.
Qed.

Lemma forEach_pushCandle_membersApart this (sticks : list (Stick num)) :
  membersApart this → membersApart (forEach sticks pushCandle this).1.
Proof.
  apply (forEach_pushCandle_keeps membersApart (λ _, True)).
  - intros bot stick _. apply pushCandle_membersApart.
  - by apply Forall_true.
Qed.

Lemma forEach_pushCandle_allStamped this (sticks : list (Stick num)) :
  Forall (λ stick, is_Some (mts (stick_candle stick))) sticks →
  allStamped this → allStamped (forEach sticks pushCandle this).1.
Proof.
  apply (forEach_pushCandle_keeps allStamped).
  intros bot stick. apply pushCandle_allStamped.
Qed.

Lemma forEach_pushCandle_grows this (sticks : list (Stick num)) (symbol : string) :
  (∀ series,
     candles this !! symbol = Some (Series series) →
     ∃ more, candles (forEach sticks pushCandle this).1 !! symbol
             = Some (Series (series ++ more))) ∧
  (candles this !! symbol = Some Member →
   candles (forEach sticks pushCandle this).1 !! symbol = Some Member).
Proof.
  revert this. induction sticks as [|stick sticks IH]; intros this.
  { split; [|done]. intros series Hs. exists []. by rewrite app_nil_r. }
  cbn [forEach]. unfold mbind, method_bind.
  destruct (pushCandle_grows this stick symbol) as [Hs Hm].
  destruct (pushCandle stick this) as [this' [[]|e]]; cbn [fst] in *; [|done].
  destruct (IH this') as [IHs IHm]. split; [|by auto].
  intros series Hseries. destruct (Hs series Hseries) as [more1 Hmore1].
  destruct (IHs _ Hmore1) as [more2 Hmore2].
  exists (more1 ++ more2). by rewrite app_assoc.
Qed.

(** The loop goes through when no symbol of the batch reads a member of
    [Object.prototype]; each symbol then has its candles appended in
    batch order. *)
Lemma forEach_pushCandle_merges this (sticks : list (Stick num)) :
  Forall (λ stick, readCandles this (stick_symbol stick) ≠ Some Member) sticks →
  (forEach sticks pushCandle this).2 = Normal () ∧
  ∀ symbol,
    candles (forEach sticks pushCandle this).1 !! symbol =
    match filter (λ stick, stick_symbol stick = symbol) sticks with
    | [] => candles this !! symbol
    | matching =>
        Some (Series (seriesOf this symbol ++ (stick_candle <$> matching)))
    end.
Proof.
  revert this. induction sticks as [|stick sticks IH]; intros this Hall; [done|].
  apply Forall_cons in Hall as [Hstick Hall].
  cbn [forEach]. unfold mbind, method_bind.
  pose proof (pushCandle_read_other this stick) as Hother.
  rewrite pushCandle_pushes in Hother |- * by done.
  set (this' := with_candles _ this) in *. cbn [fst] in Hother.
  destruct (IH this') as [Hdone Hlookup].
  { eapply Forall_impl; [exact Hall|]. intros stick' Hok. cbn beta in Hok |- *.
    destruct (decide (stick_symbol stick' = stick_symbol stick)) as [Heq|Hne].
    - rewrite Heq. unfold readCandles, this'. cbn. by rewrite lookup_insert_eq.
    - by rewrite Hother. }
  split; [done|]. intros symbol. rewrite Hlookup, filter_cons.
  unfold seriesOf at 1, this'. cbn [candles with_candles]. rewrite lookup_insert.
  destruct (decide (stick_symbol stick = symbol)) as [<-|Hne].
  - destruct (filter _ sticks) as [|stick' matching]; [done|].
    rewrite fmap_cons. by rewrite <-app_assoc.
  - done.
Qed.

(** The loop throws when some symbol of the batch reads a member of
    [Object.prototype]. *)
Lemma forEach_pushCandle_throws this (sticks : list (Stick num)) :
  Exists (λ stick, readCandles this (stick_symbol stick) = Some Member) sticks →
  (forEach sticks pushCandle this).2 = Throw TypeError.
Proof.
  revert this. induction sticks as [|stick sticks IH]; intros this Hex.
  { by apply Exists_nil in Hex. }
  cbn [forEach]. unfold mbind, method_bind.
  destruct (decide (readCandles this (stick_symbol stick) = Some Member))
    as [Hm|Hok].
  { destruct (pushCandle_throws this stick Hm) as (Hthrow & _).
    by destruct (pushCandle stick this) as [this' [[]|[]]]. }
  apply Exists_cons in Hex as [?|Hex]; [done|].
  pose proof (pushCandle_read_other this stick) as Hother.
  rewrite pushCandle_pushes in Hother |- * by done.
  set (this' := with_candles _ this) in *. cbn [fst] in Hother.
  apply IH. eapply Exists_impl; [exact Hex|]. intros stick' Hbad. cbn beta in *.
  rewrite Hother; [done|]. intros Heq. by rewrite Heq in Hbad.
Qed.

Lemma forEach_pushCandle_absent this (sticks : list (Stick num)) (symbol : string) :
  symbol ∉ stick_symbol <$> sticks →
  candles (forEach sticks pushCandle this).1 !! symbol = candles this !! symbol.
Proof.
  revert this. induction sticks as [|stick sticks IH]; intros this Hnot; [done|].
  rewrite fmap_cons, not_elem_of_cons in Hnot. destruct Hnot as [Hne Hnot].
  cbn [forEach]. unfold mbind, method_bind.
  assert (candles (pushCandle stick this).1 !! symbol = candles this !! symbol)
    as Hstep.
  { destruct (decide (readCandles this (stick_symbol stick) = Some Member))
      as [Hm|Hok].
    - by apply pushCandle_throws.
    - rewrite pushCandle_pushes by done. cbn. by rewrite lookup_insert_ne. }
  destruct (pushCandle stick this) as [this' [[]|e]]; cbn [fst] in *; [|done].
  by rewrite IH.
Qed.
End store_facts.

(** ** Updates of the candle store *)

Section update_facts.
Context {num : Type} `{!JSNumber num, !Indicators num}.
Implicit Types (this : SimpleBot num) (env : string → num * Z).

Lemma onUpdateCandles_unfold this (sticks : list (Stick num)) env :
  onUpdateCandles sticks env this =
  match forEach sticks pushCandle this with
  | (this', Normal _) =>
      forEach (object_keys (updatedSymbols sticks))
              (λ symbol, checkTrade symbol (env symbol).1 (env symbol).2) this'
  | (this', Throw e) => (this', Throw e)
  end.
Proof.
  unfold onUpdateCandles, mbind, method_bind.
  by destruct (forEach sticks pushCandle this) as [this' [[]|e]].
Qed.

Lemma onUpdateCandles_stores this (sticks : list (Stick num)) env :
  candles (onUpdateCandles sticks env this).1 =
    candles (forEach sticks pushCandle this).1 ∧
  tickers (onUpdateCandles sticks env this).1 = tickers this ∧
  tickers_proto (onUpdateCandles sticks env this).1 = tickers_proto this.
Proof.
  rewrite onUpdateCandles_unfold.
  destruct (forEach_pushCandle_other this sticks) as (Ht & Hp & _).
  destruct (forEach sticks pushCandle this) as [this' [[]|e]]; cbn [fst] in *;
    [|done].
  destruct (forEach_checkTrade_stores this'
              (object_keys (updatedSymbols sticks)) env) as (-> & -> & ->).
  done.
Qed.

Lemma onUpdateCandles_ledger this (sticks : list (Stick num)) env :
  ∃ new,
    myOrders (onUpdateCandles sticks env this).1 = myOrders this ++ new ∧
    (order_symbol <$> new) `sublist_of` object_keys (updatedSymbols sticks) ∧
    Forall (λ order,
              placedFor (forEach sticks pushCandle this).1 (order_symbol order) order)
           new.
Proof.
  rewrite onUpdateCandles_unfold.
  destruct (forEach_pushCandle_other this sticks) as (_ & _ & Ho).
  destruct (forEach sticks pushCandle this) as [this' [[]|e]]; cbn [fst] in *.
  - destruct (forEach_checkTrade_ledger this'
                (object_keys (updatedSymbols sticks)) env)
      as (new & Hledger & Hsub & Hall).
    exists new. cbv zeta in Hledger. by rewrite Hledger, Ho.
  - exists []. rewrite app_nil_r. split; [done|].
    split; [apply sublist_nil_l|constructor].
Qed.

Lemma updatedSymbols_elem_of (sticks : list (Stick num)) (symbol : string) :
  symbol ∈ updatedSymbols sticks → symbol ∈ stick_symbol <$> sticks.
Proof. unfold updatedSymbols. by intros [_ ?]%list_elem_of_filter. Qed.

(** Merging a batch keeps the orders marked. *)
Lemma forEach_pushCandle_marked this (sticks : list (Stick num)) :
  Forall (λ stick, readCandles this (stick_symbol stick) ≠ Some Member) sticks →
  Forall (marked this) (myOrders this) →
  Forall (marked (forEach sticks pushCandle this).1)
         (myOrders (forEach sticks pushCandle this).1).
Proof.
  intros Hok Hall. destruct (forEach_pushCandle_other this sticks) as (_ & _ & ->).
  destruct (forEach_pushCandle_merges this sticks Hok) as [_ Hlookup].
  eapply Forall_impl; [exact Hall|]. intros order Hmarked.
  unfold marked, readCandles in *. rewrite Hlookup.
  destruct (filter _ sticks) as [|stick matching]; [done|].
  by destruct (seriesOf _ _).
Qed.

(** [onUpdateCandles] completes when no symbol of the batch reads a
    member of [Object.prototype] and every order can be marked. *)
Lemma onUpdateCandles_normal this (sticks : list (Stick num)) env :
  Forall (λ stick, readCandles this (stick_symbol stick) ≠ Some Member) sticks →
  Forall (marked this) (myOrders this) →
  (onUpdateCandles sticks env this).2 = Normal () ∧
  Forall (marked (onUpdateCandles sticks env this).1)
         (myOrders (onUpdateCandles sticks env this).1).
Proof.
  intros Hok Hall. rewrite onUpdateCandles_unfold.
  pose proof (forEach_pushCandle_marked this sticks Hok Hall) as Hall'.
  destruct (forEach_pushCandle_merges this sticks Hok) as [Hdone Hlookup].
  destruct (forEach sticks pushCandle this) as [this' [[]|e]]; cbn [fst snd] in *;
    [|done].
  apply forEach_checkTrade_normal; [|done].
  intros symbol Hin%object_keys_elem_of%updatedSymbols_elem_of.
  apply list_elem_of_fmap in Hin as (stick & -> & Hin).
  unfold readCandles. rewrite Hlookup.
  assert (stick ∈ filter (λ stick', stick_symbol stick' = stick_symbol stick) sticks)
    as Hmatch by by apply list_elem_of_filter.
  destruct (filter _ sticks) as [|stick' matching]; [by apply elem_of_nil in Hmatch|].
  done.
Qed.

(** The invariants of the store under any call. *)
Lemma call_candlesNonEmpty this (c : Call) :
  candlesNonEmpty this → candlesNonEmpty (call c this).1.
Proof.
  intros Hinv. destruct c as [sticks env|symbol prices|symbol random now
                             |symbol sg price amount now|]; cbn [call].
  - unfold candlesNonEmpty.
    destruct (onUpdateCandles_stores this sticks env) as (-> & _).
    by apply forEach_pushCandle_candlesNonEmpty.
  - unfold onUpdateTickers. by case_bool_decide.
  - unfold candlesNonEmpty.
    by destruct (checkTrade_stores this symbol random now) as (-> & _).
  - done.
  - unfold mbind, method_bind, getCurrentPoL. by destruct (sumChanges _ _ _).
Qed.

Lemma call_membersApart this (c : Call) :
  membersApart this → membersApart (call c this).1.
Proof.
  intros Hinv. destruct c as [sticks env|symbol prices|symbol random now
                             |symbol sg price amount now|]; cbn [call].
  - unfold membersApart.
    destruct (onUpdateCandles_stores this sticks env) as (-> & _).
    by apply forEach_pushCandle_membersApart.
  - unfold onUpdateTickers. by case_bool_decide.
  - unfold membersApart.
    by destruct (checkTrade_stores this symbol random now) as (-> & _).
  - done.
  - unfold mbind, method_bind, getCurrentPoL. by destruct (sumChanges _ _ _).
Qed.

Lemma after_store_invariants this (calls : list Call) :
  candlesNonEmpty this ∧ membersApart this →
  candlesNonEmpty (after calls this) ∧ membersApart (after calls this).
Proof.
  revert this. induction calls as [|c calls IH]; intros this [Hne Hm]; [done|].
  cbn [after foldl]. apply IH.
  split; [by apply call_candlesNonEmpty|by apply call_membersApart].
Qed.

Lemma constructor_store_invariants (symbols : list string) (maxSpendInUSD : num) :
  candlesNonEmpty (constructor symbols maxSpendInUSD) ∧
  membersApart (constructor symbols maxSpendInUSD) ∧
  allStamped (constructor symbols maxSpendInUSD) ∧
  ledgerSound (constructor symbols maxSpendInUSD).
Proof.
  split_and!.
  - intros symbol series. cbn. by rewrite lookup_empty.
  - intros symbol slot. cbn. by rewrite lookup_empty.
  - intros symbol series candle. cbn. by rewrite lookup_empty.
  - constructor.
Qed.

(** Where members and arrays are kept apart, an order whose symbol is no
    name of [Object.prototype] can be marked on a store without empty
    array. *)
Lemma ordinary_marked this (order : Order num) :
  candlesNonEmpty this → membersApart this →
  inherited (order_symbol order) = false → marked this order.
Proof.
  intros Hne Hm Hname. unfold marked.
  destruct (readCandles this (order_symbol order)) as [[series|]|] eqn:Hread;
    [|by apply (membersApart_read _ _ Hm) in Hread; congruence|done].
  apply readCandles_Series in Hread. by eapply Hne.
Qed.
End update_facts.

(** ** The example states *)

Lemma position_marked (side : Signal) :
  Forall (marked (position side)) (myOrders (position side)).
Proof. repeat constructor. by vm_compute. Qed.

Lemma ready_series :
  candles ready !! "BTCUSD" = Some (Series (stick_candle <$> risingSticks)).
Proof. by vm_compute. Qed.

Lemma ready_actionable : actionable ready "BTCUSD".
Proof.
  split; [by vm_compute|]. exists (stick_candle <$> risingSticks).
  split_and!; [apply ready_series|discriminate|left; by vm_compute].
Qed.

(** ** Lists *)

Lemma filter_all {A} (P : A → Prop) `{!∀ x, Decision (P x)} (l : list A) :
  Forall P l → filter P l = l.
Proof.
  induction 1 as [|x l HP _ IH]; [done|].
  by rewrite filter_cons, decide_True, IH.
Qed.

(** ** The adapter *)

Section adapter_facts.
Context {num : Type}.
Implicit Types (raws : list (Raw (Candle num))) (payload : Payload num).

Lemma filterMts_spec raws :
  filterMts raws =
  if decide (Exists isNullish raws) then Throw TypeError
  else Normal (omap stamped raws).
Proof.
  induction raws as [|raw raws IH].
  { case_decide as Hex; [by apply Exists_nil in Hex|done]. }
  cbn [filterMts]. rewrite IH.
  destruct raw as [| |candle].
  - rewrite decide_True; [done|]. by left.
  - destruct (decide (Exists isNullish raws)) as [Hex|Hno].
    + rewrite decide_True; [done|]. by right.
    + rewrite decide_False; [done|]. by intros [[]|?]%Exists_cons.
  - destruct (decide (Exists isNullish raws)) as [Hex|Hno].
    + rewrite decide_True; [done|]. by right.
    + rewrite decide_False by (by intros [[]|?]%Exists_cons).
      cbn. by case_bool_decide.
Qed.

Lemma omap_stamped_reverse raws :
  omap stamped (reverse raws) = reverse (omap stamped raws).
Proof.
  induction raws as [|raw raws IH]; [done|].
  rewrite reverse_cons, omap_app, IH. simpl.
  destruct (stamped raw); simpl.
  - by rewrite reverse_cons.
  - by rewrite app_nil_r.
Qed.

Lemma Exists_isNullish_arranged payload :
  Exists isNullish (arranged payload) ↔ Exists isNullish (given payload).
Proof.
  destruct payload as [raw|raws]; [done|]. simpl.
  rewrite !Exists_exists. by setoid_rewrite elem_of_reverse.
Qed.

Lemma stamped_has_mts raws candle :
  candle ∈ omap stamped raws ↔ RawObject candle ∈ raws ∧ is_Some (mts candle).
Proof.
  rewrite list_elem_of_omap. split.
  - intros ([| |candle'] & Hin & Hst); simpl in Hst; try done.
    case_bool_decide; by simplify_eq.
  - intros [Hin Hmts]. exists (RawObject candle). split; [done|].
    simpl. by rewrite bool_decide_eq_true_2.
Qed.

Lemma timestamps_reverse (candles : list (Candle num)) :
  timestamps (reverse candles) = reverse (timestamps candles).
Proof.
  unfold timestamps. induction candles as [|candle candles IH]; [done|].
  rewrite reverse_cons, omap_app, IH. simpl.
  destruct (mts candle); simpl.
  - by rewrite reverse_cons.
  - by rewrite app_nil_r.
Qed.

Lemma fmap_toStick_candle (symbol : string) (kept : list (Candle num)) :
  stick_candle <$> (toStick symbol <$> kept) = kept.
Proof. rewrite <-list_fmap_compose. by rewrite list_fmap_id. Qed.

(** [onCandles], case by case. *)
Lemma onCandles_spec payload (key : string) :
  onCandles payload (Some key) =
  match split ":" key !! 2 with
  | None => Throw TypeError
  | Some field =>
      if decide (Exists isNullish (given payload)) then Throw TypeError
      else
        let kept := omap stamped (arranged payload) in
        if decide (kept = []) then Normal [LogError ("Candle issue: " +:+ key)]
        else
          match formatSymbol (Some field) with
          | Normal symbol => Normal [EmitCandles (toStick symbol <$> kept)]
          | Throw e => Throw e
          end
  end.
Proof.
  unfold onCandles. destruct (split ":" key !! 2) as [field|]; [|done].
  simpl. unfold mbind at 1, completion_bind at 1.
  fold (arranged payload). rewrite filterMts_spec.
  destruct (decide (Exists isNullish (arranged payload))) as [Hex|Hno].
  - rewrite decide_True by by apply Exists_isNullish_arranged. done.
  - rewrite decide_False by by rewrite <-Exists_isNullish_arranged.
    simpl. rewrite length_fmap.
    by destruct (omap stamped (arranged payload)) as [|candle kept].
Qed.
End adapter_facts.

(** ** The bot behind the adapter *)

Section system_facts.
Context {num : Type} `{!JSNumber num, !Indicators num}.
Implicit Types (this : SimpleBot num) (env : string → num * Z).

Lemma forEach_singleton {S X} (x : X) (f : X → Method S ()) (s : S) :
  forEach [x] f s = f x s.
Proof.
  simpl. unfold mbind, method_bind. by destruct (f x s) as [s' [[]|e]].
Qed.

Lemma forEach_silent (actions : list (Action num)) env this :
  Forall silent actions → forEach actions (listener env) this = (this, Normal ()).
Proof.
  induction 1 as [|action actions Hs _ IH]; [done|].
  simpl. unfold mbind, method_bind. by destruct action.
Qed.

Lemma subscriptions_silent (symbols : list string) :
  Forall silent
    (symbols ≫= λ symbol,
       [SubscribeTicker (num:=num) ("t" +:+ symbol);
        SubscribeCandles ("trade:1m:t" +:+ symbol)]).
Proof.
  induction symbols as [|symbol symbols IH]; [constructor|].
  cbn. by repeat (constructor; [exact I|]).
Qed.

Lemma formatSymbol_Some (field : string) :
  ∃ symbol, formatSymbol (Some field) = Normal symbol.
Proof. by eexists. Qed.

(** A batch for one symbol, merged. *)
Lemma forEach_pushCandle_same this (symbol : string) (kept : list (Candle num)) :
  kept ≠ [] → readCandles this symbol ≠ Some Member →
  candles (forEach (toStick symbol <$> kept) pushCandle this).1 !! symbol =
  Some (Series (seriesOf this symbol ++ kept)).
Proof.
  intros Hne Hread.
  assert (Forall (λ stick : Stick num, stick_symbol stick = symbol)
                 (toStick symbol <$> kept)) as Hall
    by by apply Forall_fmap, Forall_true.
  destruct (forEach_pushCandle_merges this (toStick symbol <$> kept)) as [_ ->].
  { eapply Forall_impl; [exact Hall|]. by intros stick ->. }
  rewrite (filter_all _ _ Hall).
  destruct (toStick symbol <$> kept) as [|stick rest] eqn:Hsticks;
    [by apply fmap_nil_inv in Hsticks|].
  rewrite <-Hsticks. by rewrite fmap_toStick_candle.
Qed.

(** What [deliver] does with a ['candle'] event, case by case. *)
Lemma deliver_candle this payload (pair : option string) env :
  (¬ wellFormed payload pair ∧
   onCandles payload pair = Throw TypeError ∧
   deliver (EvCandle payload pair) env this = (this, Throw TypeError)) ∨
  (∃ key,
     pair = Some key ∧ wellFormed payload pair ∧
     onCandles payload pair = Normal [LogError ("Candle issue: " +:+ key)] ∧
     omap stamped (arranged payload) = [] ∧
     deliver (EvCandle payload pair) env this = (this, Normal ())) ∨
  (∃ symbol,
     wellFormed payload pair ∧ channelSymbol pair = Some symbol ∧
     omap stamped (arranged payload) ≠ [] ∧
     onCandles payload pair =
       Normal [EmitCandles (toStick symbol <$> omap stamped (arranged payload))] ∧
     deliver (EvCandle payload pair) env this =
       onUpdateCandles (toStick symbol <$> omap stamped (arranged payload)) env this).
Proof.
  destruct pair as [key|].
  2:{ left. split; [by intros (? & ? & _)|done]. }
  unfold deliver, wellFormed, channelSymbol. cbn [wsHandler mbind option_bind].
  rewrite onCandles_spec.
  destruct (split ":" key !! 2) as [field|] eqn:Hfield.
  2:{ left. apply lookup_ge_None in Hfield.
      split; [|done]. intros (? & [= <-] & ? & _). lia. }
  apply lookup_lt_Some in Hfield.
  destruct (decide (Exists isNullish (given payload))).
  { left. split; [|done]. by intros (? & _ & _ & ?). }
  assert (∃ key', Some key = Some key' ∧ 3 ≤ length (split ":" key') ∧
                  ¬ Exists isNullish (given payload)) as Hwf
    by (exists key; split_and!; [done|lia|done]).
  right. cbv zeta. destruct (decide (omap stamped (arranged payload) = [])).
  - left. exists key. by split_and!.
  - right. destruct (formatSymbol_Some field) as [symbol Hsymbol].
    rewrite Hsymbol. exists symbol. rewrite forEach_singleton. by split_and!.
Qed.

(** What [deliver] does with a ['ticker'] event, case by case. *)
Lemma deliver_ticker this (pair : option string) (ticker : Raw (Prices num)) env :
  ((pair = None ∨ isNullish ticker) ∧
   deliver (EvTicker pair ticker) env this = (this, Throw TypeError)) ∨
  (is_Some pair ∧ ¬ isNullish ticker ∧
   ∃ symbol prices,
     formatSymbol pair = Normal symbol ∧
     onTicker pair ticker = Normal [EmitTicker symbol prices] ∧
     deliver (EvTicker pair ticker) env this = onUpdateTickers symbol prices this).
Proof.
  unfold deliver. cbn [wsHandler]. unfold onTicker.
  destruct pair as [key|]; [|left; by split; [left|]].
  destruct (formatSymbol_Some key) as [symbol ->]. simpl.
  destruct ticker as [| |ticker]; [left; by split; [right|]|right..];
    (split; [done|]); (split; [by intros []|]);
    eexists _, _; by rewrite forEach_singleton.
Qed.

(** The ['error'], ['close'] and ['open'] handlers leave the bot alone;
    the first throws when [JSON.stringify] does. *)
Lemma deliver_socket this (ev : WsEvent num) env :
  match ev with
  | EvTicker _ _ | EvCandle _ _ => True
  | EvError (Throw e) => deliver ev env this = (this, Throw e)
  | _ => deliver ev env this = (this, Normal ())
  end.
Proof.
  destruct ev as [[json|e]| | |pair ticker|payload pair]; try done.
  unfold deliver; cbn [wsHandler]. apply forEach_silent.
  constructor; [exact I|apply subscriptions_silent].
Qed.

Lemma deliver_socket_state this (ev : WsEvent num) env :
  match ev with
  | EvTicker _ _ | EvCandle _ _ => True
  | _ => (deliver ev env this).1 = this
  end.
Proof.
  pose proof (deliver_socket this ev env) as Hev.
  destruct ev as [[json|e]| | |pair ticker|payload pair]; try done;
    by rewrite Hev.
Qed.

Lemma stamped_sticks (symbol : string) (raws : list (Raw (Candle num))) :
  Forall (λ stick : Stick num, is_Some (mts (stick_candle stick)))
         (toStick symbol <$> omap stamped raws).
Proof.
  apply Forall_fmap, Forall_forall. intros candle Hin; simpl.
  by apply stamped_has_mts in Hin as [_ ?].
Qed.

(** Each socket event acts on the bot as at most one call to
    [onUpdateTickers] or [onUpdateCandles]. *)
Lemma deliver_as_calls this (ev : WsEvent num) env :
  ∃ calls : list Call,
    (deliver ev env this).1 = after calls this ∧
    length calls ≤ 1 ∧ Forall isUpdateCall calls.
Proof.
  assert (∃ calls : list Call,
            this = after calls this ∧
            length calls ≤ 1 ∧ Forall isUpdateCall calls) as Hnone.
  { exists []. split_and!; [done|cbn; lia|constructor]. }
  pose proof (deliver_socket_state this ev env) as Hsocket.
  destruct ev as [err| | |pair ticker|payload pair]; try by rewrite Hsocket.
  - destruct (deliver_ticker this pair ticker env)
      as [[_ ->]|(_ & _ & symbol & prices & _ & _ & ->)]; [done|].
    exists [CallOnUpdateTickers symbol prices].
    split_and!; [done|cbn; lia|by repeat constructor].
  - destruct (deliver_candle this payload pair env)
      as [(_ & _ & ->)|[(key & _ & _ & _ & _ & ->)|(symbol & _ & _ & _ & _ & ->)]];
      [done..|].
    eexists [CallOnUpdateCandles _ env].
    split_and!; [done|cbn; lia|by repeat constructor].
Qed.

Lemma hasTicker_everTicker this (symbol : string) (series : list (Candle num)) :
  membersApart this →
  candles this !! symbol = Some (Series series) →
  hasTicker this symbol = true → everTicker this symbol.
Proof.
  intros Hm Hseries. unfold hasTicker, everTicker.
  assert (inherited symbol = false) as Hname.
  { destruct (inherited symbol) eqn:Hin; [|done].
    by apply (Hm symbol (Series series)) in Hin. }
  destruct (tickers this !! symbol) as [prices|]; [by left|].
  destruct (tickers_proto this) as [proto|]; [|congruence].
  repeat case_bool_decide; subst; intros ?; try congruence; right;
    (split; [done|]); by repeat constructor.
Qed.

Lemma ledgerSound_marked this :
  ledgerSound this → Forall (marked this) (myOrders this).
Proof.
  intros Hsound. eapply Forall_impl; [exact Hsound|].
  intros order (_ & _ & series & Hseries & Hne). by eapply marked_Series.
Qed.

Lemma onUpdateTickers_underEvents this (symbol : string) (prices : Prices num) :
  underEvents this → underEvents (onUpdateTickers symbol prices this).1.
Proof.
  intros (Hne & Hm & Hst & Hsound). unfold onUpdateTickers.
  case_bool_decide; cbn [fst]; (split_and!; [done..|]).
  - eapply Forall_impl; [exact Hsound|]. intros order (Hsig & Hticker & Hdata).
    split_and!; [done| |done]. destruct Hticker as [?|[_ ?]]; [by left|].
    right. by split.
  - eapply Forall_impl; [exact Hsound|]. intros order (Hsig & Hticker & Hdata).
    split_and!; [done| |done]. destruct Hticker as [Hown|?]; [|by right].
    left. cbn. rewrite lookup_insert. by case_decide.
Qed.

Lemma onUpdateCandles_underEvents this (sticks : list (Stick num)) env :
  Forall (λ stick, is_Some (mts (stick_candle stick))) sticks →
  underEvents this → underEvents (onUpdateCandles sticks env this).1.
Proof.
  intros Hstamped (Hne & Hm & Hst & Hsound).
  destruct (onUpdateCandles_stores this sticks env) as (Hc & Ht & Hp).
  pose proof (forEach_pushCandle_candlesNonEmpty this sticks Hne) as Hne'.
  pose proof (forEach_pushCandle_membersApart this sticks Hm) as Hm'.
  split_and!.
  - unfold candlesNonEmpty. by rewrite Hc.
  - unfold membersApart. by rewrite Hc.
  - unfold allStamped. rewrite Hc. by apply forEach_pushCandle_allStamped.
  - unfold ledgerSound, everTicker.
    destruct (onUpdateCandles_ledger this sticks env) as (new & -> & _ & Hnew).
    rewrite Hc, Ht, Hp. apply Forall_app. split.
    + eapply Forall_impl; [exact Hsound|]. intros order (Hsig & Hticker & Hdata).
      split_and!; [done..|]. destruct Hdata as (series & Hseries & Hnonempty).
      destruct (forEach_pushCandle_grows this sticks (order_symbol order))
        as [Hgrow _].
      destruct (Hgrow series Hseries) as [more Hmore].
      eexists. split; [exact Hmore|]. by destruct series.
    + eapply Forall_impl; [exact Hnew|].
      intros order (_ & Hsig & Hticker & series & lastCandle & Hseries & Hlast & _).
      destruct (forEach_pushCandle_other this sticks) as (Ht' & Hp' & _).
      split_and!; [done| |].
      * apply (hasTicker_everTicker _ _ series Hm' Hseries) in Hticker.
        unfold everTicker in Hticker. by rewrite Ht', Hp' in Hticker.
      * exists series. split; [done|]. intros ->. done.
Qed.

Lemma deliver_underEvents this (ev : WsEvent num) env :
  underEvents this → underEvents (deliver ev env this).1.
Proof.
  intros Hinv. pose proof (deliver_socket_state this ev env) as Hsocket.
  destruct ev as [err| | |pair ticker|payload pair]; try by rewrite Hsocket.
  - destruct (deliver_ticker this pair ticker env)
      as [[_ ->]|(_ & _ & symbol & prices & _ & _ & ->)]; [done|].
    by apply onUpdateTickers_underEvents.
  - destruct (deliver_candle this payload pair env)
      as [(_ & _ & ->)|[(key & _ & _ & _ & _ & ->)|(symbol & _ & _ & _ & _ & ->)]];
      [done..|].
    by apply onUpdateCandles_underEvents; [apply stamped_sticks|].
Qed.

Lemma run_underEvents (evs : list (WsEvent num * (string → num * Z))) this :
  underEvents this → underEvents (run evs this).
Proof.
  revert this. induction evs as [|[ev env] evs IH]; intros this Hinv; [done|].
  simpl. by apply IH, deliver_underEvents.
Qed.

Lemma fresh_underEvents (symbols : list string) (maxSpendInUSD : num)
    (evs : list (WsEvent num * (string → num * Z))) :
  underEvents (run evs (constructor symbols maxSpendInUSD)).
Proof.
  apply run_underEvents.
  destruct (constructor_store_invariants symbols maxSpendInUSD) as (? & ? & ? & ?).
  by split_and!.
Qed.

(** Under socket events, a batch for a symbol that is no name of
    [Object.prototype] is merged and checked without error. *)
Lemma onUpdateCandles_ordinary this (symbol : string)
    (kept : list (Candle num)) env :
  underEvents this → inherited symbol = false →
  (onUpdateCandles (toStick symbol <$> kept) env this).2 = Normal ().
Proof.
  intros (Hne & Hm & _ & Hsound) Hname.
  apply onUpdateCandles_normal; [|by apply ledgerSound_marked].
  apply Forall_fmap, Forall_true. intros candle. cbn.
  rewrite (membersApart_read _ _ Hm). congruence.
Qed.
End system_facts.

(** ** Sorted lists *)

Lemma StronglySorted_reverse {A} (R : relation A) (l : list A) :
  StronglySorted R l → StronglySorted (flip R) (reverse l).
Proof.
  induction 1 as [|x l Hl IH Hx]; [constructor|].
  rewrite reverse_cons. apply StronglySorted_app_2.
  - intros y x' Hy ->%list_elem_of_singleton. unfold flip.
    rewrite Forall_forall in Hx. apply Hx. by apply elem_of_reverse.
  - done.
  - repeat constructor.
Qed.

Lemma Sorted_ge_reverse (ts : list Z) : Sorted Z.ge ts → Sorted Z.le (reverse ts).
Proof.
  intros Hs. apply StronglySorted_Sorted.
  assert (Transitive Z.ge) as Htrans by (intros x y z; lia).
  apply (Sorted_StronglySorted Z.ge), StronglySorted_reverse in Hs.
  induction Hs as [|t ts' Hs IH Ht]; constructor; [done|].
  eapply Forall_impl; [exact Ht|]. intros t'. unfold flip. lia.
Qed.

(** ** Reconnection *)

Section reconnect_facts.
Context {num : Type}.

Lemma opens_app (actions1 actions2 : list (Action num)) :
  opens (actions1 ++ actions2) = opens actions1 + opens actions2.
Proof. unfold opens. by rewrite filter_app, length_app. Qed.

Lemma opens_subscriptions (symbols : list string) :
  opens (symbols ≫= λ symbol,
           [SubscribeTicker (num:=num) ("t" +:+ symbol);
            SubscribeCandles ("trade:1m:t" +:+ symbol)]) = 0.
Proof.
  induction symbols as [|symbol symbols IH]; [done|].
  cbn [mbind list_bind]. by rewrite opens_app, IH.
Qed.

(** The actions of the ['ticker'] and ['candle'] handlers: nothing, a log
    line or one event for the listeners. *)
Lemma data_actions (symbols : list string) (ev : WsEvent num) :
  match ev with
  | EvTicker _ _ | EvCandle _ _ =>
      actionsOf symbols ev = [] ∨
      (∃ message, actionsOf symbols ev = [LogError message]) ∨
      (∃ symbol prices, actionsOf symbols ev = [EmitTicker symbol prices]) ∨
      (∃ sticks, actionsOf symbols ev = [EmitCandles sticks])
  | _ => True
  end.
Proof.
  destruct ev as [err| | |pair ticker|payload pair]; try done;
    unfold actionsOf; cbn [wsHandler].
  - unfold onTicker. destruct pair as [key|]; [|by left].
    destruct (formatSymbol_Some key) as [symbol ->].
    destruct ticker; cbn; eauto 8.
  - destruct pair as [key|]; [|by left]. rewrite onCandles_spec.
    destruct (split ":" key !! 2) as [field|]; [|by left].
    destruct (decide (Exists isNullish (given payload))); [by left|]. cbv zeta.
    destruct (decide (omap stamped (arranged payload) = [])); [by eauto|].
    destruct (formatSymbol_Some field) as [symbol ->]. eauto 8.
Qed.

Lemma opens_actionsOf (symbols : list string) (ev : WsEvent num) :
  opens (actionsOf symbols ev) = if isEvClose ev then 1 else 0.
Proof.
  pose proof (data_actions symbols ev) as Hdata.
  destruct ev as [[json|e]| | |pair ticker|payload pair]; unfold actionsOf in *;
    cbn [wsHandler isEvClose] in *; try done.
  - unfold opens. rewrite filter_cons_False by done. apply opens_subscriptions.
  - by destruct Hdata as [->|[[? ->]|[(? & ? & ->)|[? ->]]]].
  - by destruct Hdata as [->|[[? ->]|[(? & ? & ->)|[? ->]]]].
Qed.
End reconnect_facts.

(** * The claims *)

(** C1 (amended). [signal] returns [Buy] iff both families return [Buy],
    [Sell] iff both return [Sell], and [Neutral] in every other case; it
    never returns [Unknown]: on the empty series both families return
    [Unknown] and [signal] returns [Neutral]. *)
Theorem signal_consensus {num : Type} `{!JSNumber num, !Indicators num}
    (values : list num) :
  (signal values = Buy ↔ ema values = Buy ∧ sma values = Buy) ∧
  (signal values = Sell ↔ ema values = Sell ∧ sma values = Sell) ∧
  (signal values = Neutral ↔
     ¬ (ema values = Buy ∧ sma values = Buy) ∧
     ¬ (ema values = Sell ∧ sma values = Sell)) ∧
  signal values ≠ Unknown ∧
  (ema (@nil num) = Unknown ∧ sma (@nil num) = Unknown ∧
   signal (@nil num) = Neutral).
Proof.
  unfold signal. split_and!; try done; repeat case_bool_decide;
    intuition congruence.
Qed.

(** C1, as stated, fails on the empty series: [signal([])] is ['neutral'],
    not ['unknown']. *)
Lemma signal_empty_not_unknown :
  signal (@nil Q) = Neutral ∧ signal (@nil Q) ≠ Unknown.
Proof. split; [reflexivity | discriminate]. Qed.

(** C2 (amended). For an array payload, the batch [onCandles] emits is the
    array reversed with the candles lacking [mts] dropped; its timestamps
    are those of the array in reverse, so the batch is in non-decreasing
    timestamp order whenever the array is in non-increasing (newest-first)
    order. [onUpdateCandles] appends the batch, in that order, to the
    array of candles of its symbol, when what [this.candles] gives under
    the symbol is an array or nothing. *)
Theorem onCandles_batch_order {num : Type} `{!JSNumber num, !Indicators num}
    (raws : list (Raw (Candle num))) (pair : option string)
    (sticks : list (Stick num)) :
  onCandles (Array raws) pair = Normal [EmitCandles sticks] →
  stick_candle <$> sticks = omap stamped (reverse raws) ∧
  timestamps (stick_candle <$> sticks) = reverse (rawTimestamps raws) ∧
  (Sorted Z.ge (rawTimestamps raws) →
   Sorted Z.le (timestamps (stick_candle <$> sticks))) ∧
  ∃ symbol,
    Forall (λ stick, stick_symbol stick = symbol) sticks ∧
    ∀ this env,
      readCandles this symbol ≠ Some Member →
      candles (onUpdateCandles sticks env this).1 !! symbol =
      Some (Series (seriesOf this symbol ++ (stick_candle <$> sticks))).
Proof.
  intros Hemit.
  destruct (deliver_candle (constructor [] num_zero) (Array raws) pair (λ _, (num_zero, 0%Z)))
    as [(_ & Heq & _)|[(key & _ & _ & Heq & _)|(symbol & _ & _ & Hne & Heq & _)]];
    rewrite Heq in Hemit; try done.
  injection Hemit as <-. simpl in Hne |- *.
  rewrite fmap_toStick_candle.
  assert (timestamps (omap stamped (reverse raws)) = reverse (rawTimestamps raws))
    as Hts by (unfold rawTimestamps; by rewrite omap_stamped_reverse, timestamps_reverse).
  split_and!; [done|done|..].
  - intros Hsorted. rewrite Hts. by apply Sorted_ge_reverse.
  - exists symbol.
    assert (Forall (λ stick : Stick num, stick_symbol stick = symbol)
                   (toStick symbol <$> omap stamped (reverse raws))) as Hall
      by by apply Forall_fmap, Forall_true.
    split; [done|]. intros this env Hread.
    destruct (onUpdateCandles_stores this
                (toStick symbol <$> omap stamped (reverse raws)) env) as (-> & _).
    by apply forEach_pushCandle_same.
Qed.

Lemma onCandles_batch_order_witness :
  onCandles (Array newestFirst) (Some "trade:1m:tBTCUSD") =
    Normal [EmitCandles (toStick "BTCUSD" <$> omap stamped oldestFirst)] ∧
  Sorted Z.ge (rawTimestamps newestFirst) ∧
  Sorted Z.le (timestamps (omap stamped oldestFirst)) ∧
  readCandles fresh "BTCUSD" ≠ Some Member ∧
  candles (onUpdateCandles (toStick "BTCUSD" <$> omap stamped oldestFirst)
                           draw fresh).1 !! "BTCUSD"
    = Some (Series (omap stamped oldestFirst)).
Proof.
  assert (onCandles (Array newestFirst) (Some "trade:1m:tBTCUSD") =
          Normal [EmitCandles (toStick "BTCUSD" <$> omap stamped oldestFirst)])
    as Hemit by (vm_compute; reflexivity).
  assert (Sorted Z.ge (rawTimestamps newestFirst)) as Hsorted
    by (vm_compute; repeat constructor; discriminate).
  assert (readCandles fresh "BTCUSD" ≠ Some Member) as Hread by by vm_compute.
  split; [exact Hemit|]. split; [exact Hsorted|].
  destruct (onCandles_batch_order newestFirst (Some "trade:1m:tBTCUSD") _ Hemit)
    as (_ & _ & Horder & symbol & Hsymbol & Hstore).
  rewrite fmap_toStick_candle in Horder, Hstore.
  split; [exact (Horder Hsorted)|]. split; [exact Hread|].
  assert (symbol = "BTCUSD") as ->.
  { vm_compute in Hsymbol. by apply Forall_cons in Hsymbol as [<- _]. }
  exact (Hstore fresh draw Hread).
Defined.

(** C2, as stated, fails for an array that is already oldest first: the
    batch comes out newest first. *)
Lemma onCandles_oldest_first_array_unsorted :
  ∃ sticks : list (Stick Q),
    onCandles (Array oldestFirst) (Some "trade:1m:tBTCUSD")
      = Normal [EmitCandles sticks] ∧
    timestamps (stick_candle <$> sticks) = [3; 2; 1]%Z ∧
    ¬ Sorted Z.le (timestamps (stick_candle <$> sticks)).
Proof.
  eexists. split; [vm_compute; reflexivity|]. split; [vm_compute; reflexivity|].
  vm_compute. intros Hsorted.
  inversion Hsorted as [|? ? _ Hhd]; subst.
  inversion Hhd as [|? ? Hle]; subst. by apply Hle.
Qed.

(** C3. The claim fails on the code for an order whose symbol is the name
    of a member of [Object.prototype]. On a bot that has received no
    candle, [placeOrder('toString', 'buy', 100, 2)] puts such an order in
    the ledger; [this.candles['toString']] is then the inherited function,
    the guard of [getCurrentPoL] passes, and reading [.close] of its last
    element throws, where the claim has the order contribute 0. *)
Theorem getCurrentPoL_inherited_symbol_throws :
  let bot := (placeOrder "toString" Buy 100%Q 2%Q 0 fresh).1 in
  candles bot = ∅ ∧
  (∃ order, myOrders bot = [order] ∧ order_symbol order = "toString" ∧
            hasCandleData bot order) ∧
  getCurrentPoL bot = (bot, Throw TypeError) ∧
  getCurrentPoL fresh = (fresh, Normal 0%Q).
Proof.
  split_and!; [done| |done..].
  eexists. split_and!; [done..|]. by eexists.
Qed.

(** C4. The claim fails on the code for a symbol that is the name of a
    member of [Object.prototype]. On a bot that has received nothing,
    [checkTrade('constructor')] finds neither a ticker nor candles of its
    own, yet both [this.tickers['constructor']] and
    [this.candles['constructor']] are the inherited function: the guard
    passes and [formatCandles] throws on [candles.forEach], where the
    claim has the call do nothing and raise no error. *)
Theorem checkTrade_inherited_symbol_throws :
  tickers fresh !! "constructor" = None ∧
  candles fresh !! "constructor" = None ∧
  checkTrade "constructor" (1 # 2)%Q 0 fresh = (fresh, Throw TypeError) ∧
  checkTrade "BTCUSD" (1 # 2)%Q 0 fresh = (fresh, Normal ()).
Proof. by vm_compute. Qed.



(** C6. Whenever [onCandles] completes, either it emits one non-empty
    batch, made of exactly the objects of the payload that carry [mts]
    (so no candle lacking [mts] is in it), or no such object is left and
    it emits nothing and logs ["Candle issue: <pair>"]; in the latter case
    the bot is left untouched. Under any sequence of socket events, every
    candle in every array of the store carries [mts]. *)
Theorem candles_without_mts_dropped {num : Type} `{!JSNumber num, !Indicators num} :
  (∀ (payload : Payload num) (pair : string) actions,
     onCandles payload (Some pair) = Normal actions →
     (∃ sticks,
        actions = [EmitCandles sticks] ∧ sticks ≠ [] ∧
        stick_candle <$> sticks = omap stamped (arranged payload) ∧
        (∀ stick, stick ∈ sticks → is_Some (mts (stick_candle stick))) ∧
        (∀ candle, RawObject candle ∈ given payload → mts candle = None →
                   candle ∉ stick_candle <$> sticks)) ∨
     (actions = [LogError ("Candle issue: " +:+ pair)] ∧
      omap stamped (arranged payload) = [])) ∧
  (∀ (this : SimpleBot num) payload (pair : string) env,
     onCandles payload (Some pair) = Normal [LogError ("Candle issue: " +:+ pair)] →
     deliver (EvCandle payload (Some pair)) env this = (this, Normal ())) ∧
  (∀ symbols maxSpendInUSD (evs : list (WsEvent num * (string → num * Z)))
     symbol series candle,
     candles (run evs (constructor symbols maxSpendInUSD)) !! symbol
       = Some (Series series) →
     candle ∈ series → is_Some (mts candle)).
Proof.
  split_and!.
  - intros payload pair actions Hdone.
    destruct (deliver_candle (constructor [] num_zero) payload (Some pair)
                (λ _, (num_zero, 0%Z)))
      as [(_ & Heq & _)|[(key & [= <-] & _ & Heq & Hnone & _)
                        |(symbol & _ & _ & Hne & Heq & _)]];
      rewrite Heq in Hdone; [done|right|left].
    + by injection Hdone as <-.
    + injection Hdone as <-. eexists. split; [done|].
      rewrite fmap_toStick_candle. split_and!.
      * by destruct (omap stamped (arranged payload)).
      * done.
      * apply Forall_forall, stamped_sticks.
      * intros candle _ Hnomts [_ Hmts]%stamped_has_mts.
        rewrite Hnomts in Hmts. by destruct Hmts.
  - intros this payload pair env Hlog.
    destruct (deliver_candle this payload (Some pair) env)
      as [(_ & Heq & _)|[(key & _ & _ & _ & _ & ->)|(symbol & _ & _ & Hne & Heq & _)]];
      [|done|]; by rewrite Heq in Hlog.
  - intros symbols maxSpend evs.
    by destruct (fresh_underEvents symbols maxSpend evs) as (_ & _ & Hstamped & _).
Qed.

Lemma candles_without_mts_dropped_witness :
  let unstamped :=
    {| mts := None; open := 5%Q; close := 5%Q; high := 5%Q; low := 5%Q;
       vol := 1%Q |} in
  let key := "trade:1m:tBTCUSD" in
  onCandles (Array [RawObject (candleAt 2 20%Q); RawObject unstamped;
                    RawObject (candleAt 1 10%Q)]) (Some key)
    = Normal [EmitCandles (toStick "BTCUSD" <$> [candleAt 1 10%Q; candleAt 2 20%Q])] ∧
  onCandles (Array [RawObject unstamped]) (Some key)
    = Normal [LogError ("Candle issue: " +:+ key)] ∧
  deliver (EvCandle (Array [RawObject unstamped]) (Some key)) draw fresh
    = (fresh, Normal ()) ∧
  unstamped ∉ [candleAt 1 10%Q; candleAt 2 20%Q].
Proof.
  intros unstamped key.
  destruct (candles_without_mts_dropped (num:=Q)) as (Hbatch & Hquiet & _).
  assert (onCandles (Array [RawObject (candleAt 2 20%Q); RawObject unstamped;
                            RawObject (candleAt 1 10%Q)]) (Some key)
          = Normal [EmitCandles (toStick "BTCUSD" <$> [candleAt 1 10%Q; candleAt 2 20%Q])])
    as Hemit by (vm_compute; reflexivity).
  assert (onCandles (Array [RawObject unstamped]) (Some key)
          = Normal [LogError ("Candle issue: " +:+ key)])
    as Hlog by (vm_compute; reflexivity).
  split; [exact Hemit|]. split; [exact Hlog|].
  split; [exact (Hquiet fresh _ key draw Hlog)|].
  destruct (Hbatch _ key _ Hemit)
    as [(sticks & [= <-] & _ & _ & _ & Hdropped)|[[=] _]].
  apply (Hdropped unstamped).
  - cbn [given]. apply elem_of_cons. right. by left.
  - reflexivity.
Defined.

(** C7 (amended). In any state the bot reaches under socket events: the
    ['ticker'] handler completes without throwing iff the pair is a
    string and the raw ticker is not [null] or [undefined]; for a channel
    key whose symbol is not the name of a member of [Object.prototype],
    the ['candle'] handler completes without throwing iff the channel key
    is a string with at least three colon-separated fields and no raw
    candle of the payload is [null] or [undefined]; a handler handed such
    a malformed event throws a [TypeError] and leaves the bot as it was.
    The ['error'] handler completes iff [JSON.stringify(err)] does, and
    the ['close'] and ['open'] handlers always complete; none of the
    three touches the bot. *)
Theorem handlers_complete_iff_wellformed {num : Type}
    `{!JSNumber num, !Indicators num}
    (symbols : list string) (maxSpendInUSD : num)
    (evs : list (WsEvent num * (string → num * Z))) :
  let this := run evs (constructor symbols maxSpendInUSD) in
  (∀ pair ticker env,
     ((deliver (EvTicker pair ticker) env this).2 = Normal () ↔
      is_Some pair ∧ ¬ isNullish ticker) ∧
     (¬ (is_Some pair ∧ ¬ isNullish ticker) →
      deliver (EvTicker pair ticker) env this = (this, Throw TypeError))) ∧
  (∀ payload pair env,
     (∀ symbol, channelSymbol pair = Some symbol → inherited symbol = false) →
     ((deliver (EvCandle payload pair) env this).2 = Normal () ↔
      wellFormed payload pair)) ∧
  (∀ payload pair env,
     ¬ wellFormed payload pair →
     deliver (EvCandle payload pair) env this = (this, Throw TypeError)) ∧
  (∀ err env,
     ((deliver (EvError err) env this).2 = Normal () ↔ ∃ json, err = Normal json) ∧
     (deliver (EvError err) env this).1 = this) ∧
  (∀ env, deliver EvClose env this = (this, Normal ())) ∧
  (∀ env, deliver EvOpen env this = (this, Normal ())).
Proof.
  intros this.
  pose proof (fresh_underEvents symbols maxSpendInUSD evs) as Hinv.
  fold this in Hinv.
  split_and!.
  - intros pair ticker env.
    destruct (deliver_ticker this pair ticker env)
      as [[Hbad ->]|(Hpair & Hobj & symbol & prices & _ & _ & ->)]; cbn [snd].
    + split; [|done]. split; [done|]. intros [[key ->] Hok].
      by destruct Hbad as [?|?].
    + split; [|by intros []]. split; [done|]. intros _.
      unfold onUpdateTickers. by case_bool_decide.
  - intros payload pair env Hordinary.
    destruct (deliver_candle this payload pair env)
      as [(Hbad & _ & ->)|[(key & _ & Hok & _ & _ & ->)
                          |(symbol & Hok & Hsymbol & _ & _ & ->)]].
    + by split.
    + by split.
    + rewrite (onUpdateCandles_ordinary this symbol _ env Hinv (Hordinary _ Hsymbol)).
      by split.
  - intros payload pair env Hbad.
    destruct (deliver_candle this payload pair env)
      as [(_ & _ & ->)|[(key & _ & Hok & _)|(symbol & Hok & _)]]; done.
  - intros err env. pose proof (deliver_socket this (EvError err) env) as Hev.
    destruct err as [json|e]; rewrite Hev; cbn [fst snd].
    + split; [|done]. split; [by eexists|done].
    + split; [|done]. split; [done|]. by intros [? ?].
  - intros env. apply (deliver_socket this EvClose env).
  - intros env. apply (deliver_socket this EvOpen env).
Qed.

Lemma handlers_complete_iff_wellformed_witness :
  let pair := Some "trade:1m:tBTCUSD" in
  (∀ symbol, channelSymbol pair = Some symbol → inherited symbol = false) ∧
  wellFormed (Array newestFirst) pair ∧
  (deliver (EvCandle (Array newestFirst) pair) draw (run [] fresh)).2 = Normal ().
Proof.
  intros pair.
  assert (∀ symbol, channelSymbol pair = Some symbol → inherited symbol = false)
    as Hordinary by (by intros symbol [= <-]).
  assert (wellFormed (num:=Q) (Array newestFirst) pair) as Hwf.
  { exists "trade:1m:tBTCUSD". split_and!; [done|vm_compute; lia|].
    cbn [given]. unfold newestFirst. intros Hex.
    repeat (apply Exists_cons in Hex as [[]|Hex]). by apply Exists_nil in Hex. }
  split; [exact Hordinary|]. split; [exact Hwf|].
  destruct (handlers_complete_iff_wellformed ["BTCUSD"] 1000%Q [])
    as (_ & Hcandle & _).
  exact (proj2 (Hcandle (Array newestFirst) pair draw Hordinary) Hwf).
Defined.

(** C7, as stated, fails: a channel key without a third field, a [null]
    candle, a [null] ticker and a pair that is no string each make the
    handler throw. *)
Lemma handlers_throw_on_malformed_events :
  onCandles (num:=Q) (Array []) (Some "tBTCUSD") = Throw TypeError ∧
  onCandles (num:=Q) (Array [RawNullish]) (Some "trade:1m:tBTCUSD")
    = Throw TypeError ∧
  onTicker (num:=Q) (Some "tBTCUSD") RawNullish = Throw TypeError ∧
  onTicker (num:=Q) None (RawObject {| bid := Some 1%Q; ask := Some 2%Q |})
    = Throw TypeError ∧
  (deliver (EvCandle (Array []) (Some "tBTCUSD")) draw fresh).2 = Throw TypeError.
Proof. by vm_compute. Qed.

(** C8. Each ['close'] event makes the adapter call [open()] exactly once,
    whatever happened before: over any sequence of events the socket is
    opened once by [start] and once more per ['close']. Each ['open'] event
    issues [subscribeTicker("t" + symbol)] and
    [subscribeCandles("trade:1m:t" + symbol)] for every configured symbol,
    and subscribes to nothing else. *)
Theorem reconnect_and_resubscribe {num : Type} (symbols : list string) :
  wsHandler (num:=num) symbols EvClose =
    Normal [LogError "Bitfinex: Connection closed"; WsOpen] ∧
  opens (actionsOf (num:=num) symbols EvClose) = 1 ∧
  (∀ evs : list (WsEvent num),
     opens (serviceTrace symbols evs) = 1 + closes evs) ∧
  (∀ symbol,
     symbol ∈ symbols →
     SubscribeTicker ("t" +:+ symbol) ∈ actionsOf (num:=num) symbols EvOpen ∧
     SubscribeCandles ("trade:1m:t" +:+ symbol) ∈ actionsOf (num:=num) symbols EvOpen) ∧
  (∀ pair,
     SubscribeTicker pair ∈ actionsOf (num:=num) symbols EvOpen →
     ∃ symbol, symbol ∈ symbols ∧ pair = "t" +:+ symbol) ∧
  (∀ channel,
     SubscribeCandles channel ∈ actionsOf (num:=num) symbols EvOpen →
     ∃ symbol, symbol ∈ symbols ∧ channel = "trade:1m:t" +:+ symbol).
Proof.
  split_and!.
  - done.
  - done.
  - intros evs. unfold serviceTrace. rewrite opens_app. f_equal.
    induction evs as [|ev evs IH]; [done|].
    cbn [mbind list_bind]. rewrite opens_app, opens_actionsOf, IH.
    unfold closes. rewrite filter_cons. by destruct ev.
  - intros symbol Hin. unfold actionsOf; cbn [wsHandler].
    split; apply elem_of_cons; right; apply list_elem_of_bind;
      exists symbol; (split; [|done]); by repeat constructor.
  - intros pair. unfold actionsOf; cbn [wsHandler].
    intros [?|(symbol & Hact & Hin)%list_elem_of_bind]%elem_of_cons; [done|].
    exists symbol. split; [done|].
    apply elem_of_cons in Hact as [[= ->]|Hact]; [done|].
    apply elem_of_cons in Hact as [?|Hact]; [done|]. by apply elem_of_nil in Hact.
  - intros channel. unfold actionsOf; cbn [wsHandler].
    intros [?|(symbol & Hact & Hin)%list_elem_of_bind]%elem_of_cons; [done|].
    exists symbol. split; [done|].
    apply elem_of_cons in Hact as [?|Hact]; [done|].
    apply elem_of_cons in Hact as [[= ->]|Hact]; [done|]. by apply elem_of_nil in Hact.
Qed.

(** C9. Provided the library returns no value for a series shorter than
    the period, such a period casts no vote in either family (the
    counters are left as they were) for a non-empty series; a series of 1
    to 4 prices leaves both counters at 0 and both families return
    [Neutral]. *)
Theorem short_series_casts_no_vote {num : Type} `{!JSNumber num, !Indicators num} :
  (∀ period (values : list num),
     length values < period →
     EMA_calculate period values = [] ∧ SMA_calculate period values = []) →
  ∀ values : list num,
    values ≠ [] →
    (∀ period counters,
       length values < period →
       period_vote EMA_calculate values period = NoVote ∧
       period_vote SMA_calculate values period = NoVote ∧
       count_vote EMA_calculate values (last values) counters period = counters ∧
       count_vote SMA_calculate values (last values) counters period = counters) ∧
    (length values ≤ 4 →
       ema_counters values = (0, 0) ∧ sma_counters values = (0, 0) ∧
       ema values = Neutral ∧ sma values = Neutral).
Proof.
  intros Hlib values Hne. split.
  - intros period counters Hlt. destruct (Hlib period values Hlt) as [He Hs].
    split_and!; auto using period_vote_unavailable, count_vote_unavailable.
  - intros Hlen.
    assert (∀ period, period ∈ (periods : list nat) → length values < period) as Hshort.
    { intros period Hin. unfold periods in Hin.
      repeat (apply elem_of_cons in Hin as [->|Hin]); [lia..|by apply elem_of_nil in Hin]. }
    assert (ema_counters values = (0, 0)) as Hec.
    { unfold ema_counters, periods; simpl.
      rewrite !count_vote_unavailable; [done|apply Hlib, Hshort; repeat constructor..]. }
    assert (sma_counters values = (0, 0)) as Hsc.
    { unfold sma_counters, periods; simpl.
      rewrite !count_vote_unavailable; [done|apply Hlib, Hshort; repeat constructor..]. }
    split_and!; [done|done|..].
    + by rewrite ema_nonempty, Hec.
    + by rewrite sma_nonempty, Hsc.
Qed.

Lemma short_series_casts_no_vote_witness :
  short ≠ [] ∧ length short ≤ 4 ∧ ema short = Neutral ∧ sma short = Neutral.
Proof.
  assert (short ≠ []) as Hne by discriminate.
  assert (length short ≤ 4) as Hlen by (vm_compute; lia).
  split; [exact Hne|]. split; [exact Hlen|].
  destruct (short_series_casts_no_vote Q_Indicators_short short Hne)
    as [_ Hneutral].
  destruct (Hneutral Hlen) as (_ & _ & He & Hs). by split.
Defined.

(** C10. The claim fails on the code. A candle for the symbol
    [constructor] (channel key ["trade:1m:tconstructor"], on a bot set up
    to trade it) makes [this.candles['constructor'] || []] keep the
    function inherited from [Object.prototype] and store it as an own
    property: [push] throws, and the store is left with a key that maps
    to no array. [getCurrentPoL] and [checkTrade] then read
    [candles[candles.length - 1]] of that function, which is
    [undefined]. *)
Theorem candle_store_holds_inherited_member :
  let bot := constructor ["constructor"] 1000%Q in
  let candle := candleAt 1 10%Q in
  let result :=
    deliver (EvCandle (Array [RawObject candle]) (Some "trade:1m:tconstructor"))
            draw bot in
  onCandles (Array [RawObject candle]) (Some "trade:1m:tconstructor")
    = Normal [EmitCandles [toStick "constructor" candle]] ∧
  result = onUpdateCandles [toStick "constructor" candle] draw bot ∧
  result.2 = Throw TypeError ∧
  candles result.1 !! "constructor" = Some Member ∧
  (checkTrade "constructor" (1 # 2)%Q 0 result.1).2 = Throw TypeError ∧
  (getCurrentPoL (placeOrder "constructor" Buy 10%Q 1%Q 0 result.1).1).2
    = Throw TypeError.
Proof. by vm_compute. Qed.

(** * Further properties *)

(** ** Channel keys and symbols *)

Lemma split_nonempty (sep : ascii) (s : string) : split sep s ≠ [].
Proof.
  induction s as [|c r IH]; [done|]. cbn [split].
  case_bool_decide; [done|]. by destruct (split sep r).
Qed.

Lemma split_cons_sep (sep : ascii) (r : string) :
  split sep (String sep r) = EmptyString :: split sep r.
Proof. cbn [split]. by rewrite bool_decide_eq_true_2. Qed.

Lemma split_cons_other (sep c : ascii) (r : string) :
  c ≠ sep →
  ∃ field fields,
    split sep r = field :: fields ∧
    split sep (String c r) = String c field :: fields.
Proof.
  intros Hne. cbn [split]. rewrite bool_decide_eq_false_2 by done.
  pose proof (split_nonempty sep r) as Hr.
  destruct (split sep r) as [|field fields]; [done|]. by eexists _, _.
Qed.

Lemma join_split (sep : ascii) (s : string) : join sep (split sep s) = s.
Proof.
  induction s as [|c r IH]; [done|].
  destruct (decide (c = sep)) as [->|Hne].
  - rewrite split_cons_sep. cbn [join].
    pose proof (split_nonempty sep r) as Hr.
    destruct (split sep r) as [|field fields] eqn:Hsplit; [done|].
    by rewrite IH.
  - destruct (split_cons_other sep c r Hne) as (field & fields & Hr & ->).
    rewrite Hr in IH. rewrite <-IH. by destruct fields.
Qed.

Lemma split_fields_clean (sep : ascii) (s : string) :
  Forall (λ field, includes sep field = false) (split sep s).
Proof.
  induction s as [|c r IH]; [by repeat constructor|].
  destruct (decide (c = sep)) as [->|Hne].
  - rewrite split_cons_sep. by constructor.
  - destruct (split_cons_other sep c r Hne) as (field & fields & Hr & ->).
    rewrite Hr in IH. apply Forall_cons in IH as [Hfield Hfields].
    constructor; [|done]. cbn [includes].
    by rewrite bool_decide_eq_false_2.
Qed.

Lemma split_clean (sep : ascii) (s : string) :
  includes sep s = false → split sep s = [s].
Proof.
  induction s as [|c r IH]; [done|]. cbn [includes].
  intros [Hc Hr]%orb_false_iff. apply bool_decide_eq_false in Hc.
  destruct (split_cons_other sep c r Hc) as (field & fields & Hsplit & ->).
  rewrite (IH Hr) in Hsplit. by injection Hsplit as <- <-.
Qed.

Lemma split_append_clean (sep : ascii) (s rest : string) :
  includes sep s = false →
  split sep (s +:+ String sep rest) = s :: split sep rest.
Proof.
  induction s as [|c r IH]; intros Hclean.
  - apply split_cons_sep.
  - cbn [includes] in Hclean. apply orb_false_iff in Hclean as [Hc Hr].
    apply bool_decide_eq_false in Hc.
    change (String c r +:+ String sep rest)
      with (String c (r +:+ String sep rest)).
    destruct (split_cons_other sep c (r +:+ String sep rest) Hc)
      as (field & fields & Hsplit & ->).
    rewrite (IH Hr) in Hsplit. by injection Hsplit as <- <-.
Qed.

Lemma split_join (sep : ascii) (fields : list string) :
  fields ≠ [] →
  Forall (λ field, includes sep field = false) fields →
  split sep (join sep fields) = fields.
Proof.
  induction fields as [|field rest IH]; [done|]. intros _ Hclean.
  apply Forall_cons in Hclean as [Hfield Hrest]. cbn [join].
  destruct rest as [|field' rest]; [by apply split_clean|].
  rewrite split_append_clean by done. f_equal. by apply IH.
Qed.

(** X1. [split] and [join] are inverse of each other: joining the fields
    of a string gives the string back, the fields are never none and
    never contain the separator, and splitting the join of separator-free
    fields gives the fields back. *)
Theorem split_join_round_trip (sep : ascii) :
  (∀ s, join sep (split sep s) = s) ∧
  (∀ s, split sep s ≠ []) ∧
  (∀ s, Forall (λ field, includes sep field = false) (split sep s)) ∧
  (∀ fields,
     fields ≠ [] →
     Forall (λ field, includes sep field = false) fields →
     split sep (join sep fields) = fields).
Proof.
  split_and!; auto using join_split, split_nonempty, split_fields_clean, split_join.
Qed.

Lemma substring_whole (s : string) : String.substring 0 (String.length s) s = s.
Proof. induction s as [|c r IH]; [done|]. simpl. by rewrite IH. Qed.

Lemma formatSymbol_prefixed (symbol : string) :
  formatSymbol (Some ("t" +:+ symbol)) = Normal symbol.
Proof.
  unfold formatSymbol. change ("t" +:+ symbol) with (String "t" symbol).
  assert (String.substring 0 1 (String "t" symbol) = "t") as ->
    by by destruct symbol.
  rewrite bool_decide_eq_true_2 by done. f_equal.
  replace (String.length (String "t" symbol) - 1) with (String.length symbol)
    by (cbn [String.length]; lia).
  apply substring_whole.
Qed.

Lemma formatSymbol_bare (pair : string) :
  (∀ symbol, pair ≠ "t" +:+ symbol) → formatSymbol (Some pair) = Normal pair.
Proof.
  intros Hbare. unfold formatSymbol. case_bool_decide as Ht; [|done].
  destruct pair as [|c r]; [done|]. exfalso. apply (Hbare r).
  assert (String.substring 0 1 (String c r) = String c "") as Hsub
    by by destruct r.
  rewrite Hsub in Ht. by injection Ht as ->.
Qed.

Lemma split_channel (symbol : string) :
  includes ":" symbol = false →
  split ":" ("trade:1m:t" +:+ symbol) = ["trade"; "1m"; "t" +:+ symbol].
Proof.
  intros Hclean.
  change ("trade:1m:t" +:+ symbol)
    with ("trade" +:+ String ":" ("1m" +:+ String ":" ("t" +:+ symbol))).
  rewrite !split_append_clean by done. by rewrite split_clean.
Qed.

(** X2. [formatSymbol] strips exactly one leading [t]: ["t" + symbol]
    gives [symbol] back for every symbol, and a pair comes back unchanged
    iff it does not begin with [t]. Handed [undefined], it throws. *)
Theorem formatSymbol_canonical :
  (∀ symbol, formatSymbol (Some ("t" +:+ symbol)) = Normal symbol) ∧
  (∀ pair, formatSymbol (Some pair) = Normal pair ↔
           ∀ symbol, pair ≠ "t" +:+ symbol) ∧
  formatSymbol (Some "ttBTC") = Normal "tBTC" ∧
  formatSymbol None = Throw TypeError.
Proof.
  split_and!; [apply formatSymbol_prefixed| |done..].
  intros pair. split; [|apply formatSymbol_bare].
  intros Hfix symbol ->. rewrite formatSymbol_prefixed in Hfix.
  injection Hfix as Hfix. apply (f_equal String.length) in Hfix.
  change ("t" +:+ symbol) with (String "t" symbol) in Hfix.
  cbn [String.length] in Hfix. lia.
Qed.

(** X3. The keys the adapter subscribes with lead back to the symbol.
    For a symbol without a colon: a ticker on ["t" + symbol] is emitted
    under [symbol]; every batch [onCandles] emits for
    ["trade:1m:t" + symbol] is keyed by [symbol]; and when such an event
    carries a candle with [mts], the bot appends exactly the stamped
    candles, in the order [onCandles] arranged them, to the array under
    [symbol], provided that what [this.candles] gives under [symbol] is an
    array or nothing. When it gives a member of [Object.prototype], the
    handler throws and no array is stored under [symbol]. *)
Theorem subscription_keys_round_trip {num : Type} `{!JSNumber num, !Indicators num}
    (symbol : string) :
  includes ":" symbol = false →
  split ":" ("trade:1m:t" +:+ symbol) !! 2 = Some ("t" +:+ symbol) ∧
  (∀ ticker : Raw (Prices num),
     ¬ isNullish ticker →
     ∃ prices,
       onTicker (Some ("t" +:+ symbol)) ticker = Normal [EmitTicker symbol prices]) ∧
  (∀ (payload : Payload num) sticks,
     onCandles payload (Some ("trade:1m:t" +:+ symbol)) = Normal [EmitCandles sticks] →
     sticks = toStick symbol <$> omap stamped (arranged payload)) ∧
  (∀ (this : SimpleBot num) (payload : Payload num) env,
     ¬ Exists isNullish (given payload) →
     omap stamped (arranged payload) ≠ [] →
     let this' :=
       (deliver (EvCandle payload (Some ("trade:1m:t" +:+ symbol))) env this).1 in
     (readCandles this symbol ≠ Some Member →
      candles this' !! symbol =
      Some (Series (seriesOf this symbol ++ omap stamped (arranged payload)))) ∧
     (readCandles this symbol = Some Member →
      (deliver (EvCandle payload (Some ("trade:1m:t" +:+ symbol))) env this).2
        = Throw TypeError ∧
      readCandles this' symbol = Some Member)).
Proof.
  intros Hclean. pose proof (split_channel symbol Hclean) as Hsplit.
  assert (∀ payload : Payload num,
            ¬ Exists isNullish (given payload) →
            omap stamped (arranged payload) ≠ [] →
            onCandles payload (Some ("trade:1m:t" +:+ symbol)) =
            Normal [EmitCandles (toStick symbol <$> omap stamped (arranged payload))])
    as Hemit.
  { intros payload Hok Hne. rewrite onCandles_spec, Hsplit. cbn [lookup list_lookup].
    rewrite decide_False by done. cbv zeta. rewrite decide_False by done.
    by rewrite formatSymbol_prefixed. }
  split_and!.
  - by rewrite Hsplit.
  - intros ticker Hticker. unfold onTicker. rewrite formatSymbol_prefixed.
    destruct ticker; [by destruct Hticker|by eexists..].
  - intros payload sticks. rewrite onCandles_spec, Hsplit. cbn [lookup list_lookup].
    case_decide; [done|]. cbv zeta. case_decide; [done|].
    rewrite formatSymbol_prefixed. by intros [= <-].
  - intros this payload env Hok Hne. cbv zeta. unfold deliver. cbn [wsHandler].
    rewrite (Hemit payload Hok Hne), forEach_singleton. cbn [listener].
    set (sticks := toStick symbol <$> omap stamped (arranged payload)).
    assert (Forall (λ stick : Stick num, stick_symbol stick = symbol) sticks)
      as Hall by by apply Forall_fmap, Forall_true.
    assert (sticks ≠ []) as Hsticks by by intros ?%fmap_nil_inv.
    destruct (onUpdateCandles_stores this sticks env) as (Hc & _). split.
    + intros Hread. rewrite Hc. by apply forEach_pushCandle_same.
    + intros Hread.
      assert (Exists (λ stick : Stick num,
                        readCandles this (stick_symbol stick) = Some Member) sticks)
        as Hex.
      { destruct sticks as [|stick rest]; [done|]. left.
        by apply Forall_cons in Hall as [-> _]. }
      pose proof (forEach_pushCandle_throws this sticks Hex) as Hthrow.
      rewrite onUpdateCandles_unfold.
      assert (readCandles (forEach sticks pushCandle this).1 symbol = Some Member)
        as Hstays.
      { apply readCandles_Member in Hread as [Hown|[Hnone Hname]].
        - apply readCandles_Member. left.
          by apply forEach_pushCandle_grows.
        - destruct (readCandles (forEach sticks pushCandle this).1 symbol)
            as [[series|]|] eqn:Hafter; [|done|].
          + exfalso. apply readCandles_Series in Hafter.
            clear Hex Hthrow Hc Hsticks. revert this Hnone Hafter.
            induction Hall as [|stick rest Hsym _ IH]; intros this Hnone Hafter.
            { cbn in Hafter. congruence. }
            cbn [forEach] in Hafter. unfold mbind, method_bind in Hafter.
            assert (readCandles this (stick_symbol stick) = Some Member) as Hm
              by (rewrite Hsym; apply readCandles_Member; by right).
            destruct (pushCandle_throws this stick Hm) as (Hthrow & _ & _ & Hseries).
            destruct (pushCandle stick this) as [this' [[]|e]]; [done|].
            cbn [fst] in *. apply Hseries in Hafter. congruence.
          + apply readCandles_None in Hafter as [_ ?]. congruence. }
      by destruct (forEach sticks pushCandle this) as [this' [[]|[]]].
Qed.

Lemma newestFirst_no_nullish : ¬ Exists isNullish (given (Array newestFirst)).
Proof.
  cbn [given]. unfold newestFirst. intros Hex.
  repeat (apply Exists_cons in Hex as [[]|Hex]). by apply Exists_nil in Hex.
Qed.

Lemma subscription_keys_round_trip_witness :
  includes ":" "BTCUSD" = false ∧
  readCandles fresh "BTCUSD" ≠ Some Member ∧
  candles (deliver (EvCandle (Array newestFirst) (Some "trade:1m:tBTCUSD"))
                   draw fresh).1
    !! "BTCUSD" = Some (Series (omap stamped oldestFirst)).
Proof.
  split; [reflexivity|].
  assert (readCandles fresh "BTCUSD" ≠ Some Member) as Hread by by vm_compute.
  split; [exact Hread|].
  destruct (subscription_keys_round_trip (num:=Q) "BTCUSD" eq_refl)
    as (_ & _ & _ & Hstore).
  exact (proj1 (Hstore fresh (Array newestFirst) draw newestFirst_no_nullish
                  ltac:(by vm_compute)) Hread).
Defined.

(** X4. [Object.keys(updatedSymbols)]: every assigned key comes out
    exactly once. Array-index keys come first in ascending order, the
    others after them; assigning a key again does not move it, and a new
    key that is no array index goes last. *)
Theorem object_keys_once (assigned : list string) :
  NoDup (object_keys assigned) ∧
  (∀ k, k ∈ object_keys assigned ↔ k ∈ assigned) ∧
  (∃ indices others,
     object_keys assigned = indices ++ others ∧
     Sorted index_le indices ∧
     Forall (λ k, is_Some (array_index k)) indices ∧
     Forall (λ k, array_index k = None) others) ∧
  (∀ k, k ∈ assigned → object_keys (assigned ++ [k]) = object_keys assigned) ∧
  (∀ k, k ∉ assigned → array_index k = None →
        object_keys (assigned ++ [k]) = object_keys assigned ++ [k]).
Proof.
  split_and!.
  - apply object_keys_NoDup.
  - apply object_keys_elem_of.
  - eexists _, _. split; [reflexivity|]. split_and!.
    + apply (Sorted_merge_sort index_le).
    + rewrite merge_sort_Permutation. apply Forall_forall.
      by intros k [? _]%list_elem_of_filter.
    + apply Forall_forall. by intros k [? _]%list_elem_of_filter.
  - intros k Hin. unfold object_keys. cbv zeta.
    rewrite first_occurrences_snoc, bool_decide_eq_true_2 by done.
    by rewrite app_nil_r.
  - intros k Hnew Hname. unfold object_keys. cbv zeta.
    rewrite first_occurrences_snoc, bool_decide_eq_false_2 by done.
    rewrite !filter_app, !filter_cons, !filter_nil.
    rewrite decide_False by (rewrite Hname; by intros [??]).
    rewrite decide_True by done. by rewrite app_nil_r, app_assoc.
Qed.

(** ** Columns of candles *)

(** X5. [formatCandles] transposes an array of candles: each of the five
    columns lists the corresponding field of every candle, in array
    order. Handed a member of [Object.prototype], it throws. *)
Theorem formatCandles_columns {num : Type} (series : list (Candle num)) :
  formatCandles (Series series) =
  Normal {| format_open := open <$> series; format_close := close <$> series;
            format_high := high <$> series; format_low := low <$> series;
            format_vol := vol <$> series |} ∧
  formatCandles (num:=num) Member = Throw TypeError.
Proof.
  split; [|done]. unfold formatCandles. f_equal.
  set (step := λ (format : Format num) (candle : Candle num), _).
  enough (∀ format,
            foldl step format series =
            {| format_open := format_open format ++ (open <$> series);
               format_close := format_close format ++ (close <$> series);
               format_high := format_high format ++ (high <$> series);
               format_low := format_low format ++ (low <$> series);
               format_vol := format_vol format ++ (vol <$> series) |}) as Hgen
    by apply Hgen.
  induction series as [|candle series IH]; intros format.
  - destruct format. cbn. by rewrite !app_nil_r.
  - cbn [foldl]. rewrite IH. cbn. by rewrite <-!app_assoc.
Qed.

(** ** Growth of the stores *)

Section growth_facts.
Context {num : Type} `{!JSNumber num, !Indicators num}.
Implicit Types (this : SimpleBot num) (env : string → num * Z).

Lemma call_grows this (c : Call) :
  myOrders this `prefix_of` myOrders (call c this).1 ∧
  (∀ symbol series,
     candles this !! symbol = Some (Series series) →
     ∃ more, candles (call c this).1 !! symbol = Some (Series (series ++ more))) ∧
  (∀ symbol, candles this !! symbol = Some Member →
             candles (call c this).1 !! symbol = Some Member) ∧
  (∀ symbol, is_Some (tickers this !! symbol) →
             is_Some (tickers (call c this).1 !! symbol)) ∧
  (is_Some (tickers_proto this) → is_Some (tickers_proto (call c this).1)).
Proof.
  assert (∀ symbol series,
            candles this !! symbol = Some (Series series) →
            ∃ more, candles this !! symbol = Some (Series (series ++ more)))
    as Hsame.
  { intros symbol series ->. exists []. by rewrite app_nil_r. }
  destruct c as [sticks env|symbol prices|symbol random now
                |symbol sg price amount now|]; cbn [call].
  - destruct (onUpdateCandles_ledger this sticks env) as (new & -> & _).
    destruct (onUpdateCandles_stores this sticks env) as (-> & -> & ->).
    split; [by apply prefix_app_r|].
    split; [intros symbol; by apply forEach_pushCandle_grows|].
    split; [intros symbol; by apply forEach_pushCandle_grows|]. done.
  - unfold onUpdateTickers. case_bool_decide; cbn [fst].
    + by split_and!.
    + split_and!; [done..| |done]. intros symbol' Hsome. cbn.
      rewrite lookup_insert. by case_decide.
  - destruct (checkTrade_ledger this symbol random now) as (new & -> & _).
    destruct (checkTrade_stores this symbol random now) as (-> & -> & ->).
    split; [by apply prefix_app_r|]. done.
  - split; [by apply prefix_app_r|]. done.
  - unfold mbind, method_bind, getCurrentPoL.
    by destruct (sumChanges _ _ _).
Qed.
End growth_facts.

(** X6. The ledger is append-only: whatever methods are called, in
    whatever order and whether or not they throw, the orders present
    before are still there, unchanged and in the same positions, with any
    new orders after them. *)
Theorem ledger_append_only {num : Type} `{!JSNumber num, !Indicators num}
    (calls : list Call) (this : SimpleBot num) :
  myOrders this `prefix_of` myOrders (after calls this).
Proof.
  revert this. induction calls as [|c calls IH]; intros this; [done|].
  cbn [after foldl]. etrans; [|apply IH]. apply call_grows.
Qed.

(** X7. The candle store and the tickers only grow: whatever methods are
    called, every array present before is still there with its candles
    unchanged at the front, a member of [Object.prototype] that was
    stored stays, every symbol that had a ticker of its own still has
    one, and a prototype put in place of [Object.prototype] is not taken
    away. *)
Theorem stores_only_grow {num : Type} `{!JSNumber num, !Indicators num}
    (calls : list Call) (this : SimpleBot num) :
  (∀ symbol series,
     candles this !! symbol = Some (Series series) →
     ∃ more, candles (after calls this) !! symbol = Some (Series (series ++ more))) ∧
  (∀ symbol, candles this !! symbol = Some Member →
             candles (after calls this) !! symbol = Some Member) ∧
  (∀ symbol, is_Some (tickers this !! symbol) →
             is_Some (tickers (after calls this) !! symbol)) ∧
  (is_Some (tickers_proto this) → is_Some (tickers_proto (after calls this))).
Proof.
  revert this. induction calls as [|c calls IH]; intros this.
  { split_and!; [|done..]. intros symbol series Hseries. exists [].
    by rewrite app_nil_r. }
  cbn [after foldl]. destruct (call_grows this c) as (_ & Hc & Hm & Ht & Hp).
  destruct (IH (call c this).1) as (IHc & IHm & IHt & IHp). split_and!.
  - intros symbol series Hseries.
    destruct (Hc symbol series Hseries) as [more1 Hmore1].
    destruct (IHc symbol _ Hmore1) as [more2 Hmore2].
    exists (more1 ++ more2). by rewrite app_assoc.
  - intros symbol Hmember. by apply IHm, Hm.
  - intros symbol Hsome. by apply IHt, Ht.
  - intros Hsome. by apply IHp, Hp.
Qed.

(** X8. [onUpdateCandles] merges a batch by symbol. When nothing that
    [this.candles] gives under a symbol of the batch is a member of
    [Object.prototype], the array of each symbol gets the candles of its
    sticks appended in batch order (an array is created when the symbol
    had none). When something is, the call throws a [TypeError] before
    any trade is checked, and the ledger is as it was. In both cases what
    is stored under a symbol absent from the batch, like the tickers, is
    left as it was. *)
Theorem onUpdateCandles_merges_by_symbol {num : Type}
    `{!JSNumber num, !Indicators num}
    (this : SimpleBot num) (sticks : list (Stick num)) (env : string → num * Z) :
  let this' := (onUpdateCandles sticks env this).1 in
  (Forall (λ stick, readCandles this (stick_symbol stick) ≠ Some Member) sticks →
   ∀ symbol,
     candles this' !! symbol =
     match filter (λ stick, stick_symbol stick = symbol) sticks with
     | [] => candles this !! symbol
     | matching =>
         Some (Series (seriesOf this symbol ++ (stick_candle <$> matching)))
     end) ∧
  (Exists (λ stick, readCandles this (stick_symbol stick) = Some Member) sticks →
   (onUpdateCandles sticks env this).2 = Throw TypeError ∧
   myOrders this' = myOrders this) ∧
  (∀ symbol, symbol ∉ stick_symbol <$> sticks →
             candles this' !! symbol = candles this !! symbol) ∧
  tickers this' = tickers this ∧
  tickers_proto this' = tickers_proto this.
Proof.
  intros this'. unfold this'.
  destruct (onUpdateCandles_stores this sticks env) as (Hc & Ht & Hp).
  split_and!; [| | |done..].
  - intros Hok symbol. rewrite Hc.
    by destruct (forEach_pushCandle_merges this sticks Hok) as [_ ->].
  - intros Hex. pose proof (forEach_pushCandle_throws this sticks Hex) as Hthrow.
    destruct (forEach_pushCandle_other this sticks) as (_ & _ & Ho).
    rewrite onUpdateCandles_unfold.
    by destruct (forEach sticks pushCandle this) as [bot [[]|[]]].
  - intros symbol Hnot. rewrite Hc. by apply forEach_pushCandle_absent.
Qed.

(** X9. One delivery places at most one order per symbol of the batch:
    the orders [onUpdateCandles] appends have pairwise distinct symbols,
    all taken from the batch, each with signal [Buy] or [Sell], a symbol
    under which [this.tickers] gives something truthy and, as price, the
    close of the last candle of the array once the batch is merged. *)
Theorem onUpdateCandles_one_order_per_symbol {num : Type}
    `{!JSNumber num, !Indicators num}
    (this : SimpleBot num) (sticks : list (Stick num)) (env : string → num * Z) :
  let this' := (onUpdateCandles sticks env this).1 in
  ∃ new,
    myOrders this' = myOrders this ++ new ∧
    NoDup (order_symbol <$> new) ∧
    (∀ order, order ∈ new →
       order_symbol order ∈ stick_symbol <$> sticks ∧
       (order_signal order = Buy ∨ order_signal order = Sell) ∧
       hasTicker this (order_symbol order) = true ∧
       ∃ series lastCandle,
         candles this' !! order_symbol order = Some (Series series) ∧
         last series = Some lastCandle ∧
         order_price order = close lastCandle).
Proof.
  intros this'. unfold this'.
  destruct (onUpdateCandles_ledger this sticks env) as (new & Hledger & Hsub & Hall).
  exists new. split; [done|].
  split; [exact (sublist_NoDup _ _ (object_keys_NoDup _) Hsub)|].
  intros order Hin. rewrite Forall_forall in Hall.
  destruct (Hall order Hin) as (_ & Hsig & Ht & series & lastCandle & Hc & Hlast & Hp).
  destruct (forEach_pushCandle_other this sticks) as (Ht' & Hp' & _).
  destruct (onUpdateCandles_stores this sticks env) as (Hc' & _).
  split_and!.
  - apply updatedSymbols_elem_of, object_keys_elem_of.
    eapply sublist_subseteq; [exact Hsub|]. by apply list_elem_of_fmap_2.
  - done.
  - by rewrite <-(hasTicker_ext _ this _ Ht' Hp').
  - exists series, lastCandle. by rewrite Hc'.
Qed.

(** ** Orders under socket events *)

Section run_facts.
Context {num : Type} `{!JSNumber num, !Indicators num}.
Implicit Types (this : SimpleBot num) (env : string → num * Z).

Lemma deliver_tickers_quiet this (ev : WsEvent num) env :
  ¬ isTickerEvent ev →
  tickers (deliver ev env this).1 = tickers this ∧
  tickers_proto (deliver ev env this).1 = tickers_proto this.
Proof.
  intros Hquiet. pose proof (deliver_socket_state this ev env) as Hsocket.
  destruct ev as [err| | |pair ticker|payload pair]; try by rewrite Hsocket.
  - by destruct Hquiet.
  - destruct (deliver_candle this payload pair env)
      as [(_ & _ & ->)|[(key & _ & _ & _ & _ & ->)|(symbol & _ & _ & _ & _ & ->)]];
      [done..|].
    by destruct (onUpdateCandles_stores this
                   (toStick symbol <$> omap stamped (arranged payload)) env)
      as (_ & -> & ->).
Qed.

Lemma not_marked_iff this (order : Order num) :
  ¬ marked this order ↔
  readCandles this (order_symbol order) = Some (Series []) ∨
  readCandles this (order_symbol order) = Some Member.
Proof.
  unfold marked.
  destruct (readCandles this (order_symbol order)) as [[[|candle series]|]|].
  - split; [by left|]. by intros _ ?.
  - split; [by intros []|]. by intros [?|?].
  - split; [by right|]. by intros _ ?.
  - split; [by intros []|]. by intros [?|?].
Qed.
End run_facts.

(** X10. Under any sequence of socket events, every order in the ledger
    is a buy or a sell for a symbol that had a ticker when it was placed
    (a ticker of its own, or [bid] or [ask] read through a prototype put
    in place of [Object.prototype]) and has a non-empty array of candles;
    so [getCurrentPoL] leaves no order out of its sum, and returns a
    number. *)
Theorem run_ledger_sound {num : Type} `{!JSNumber num, !Indicators num}
    (symbols : list string) (maxSpendInUSD : num)
    (evs : list (WsEvent num * (string → num * Z))) :
  let this := run evs (constructor symbols maxSpendInUSD) in
  (∀ order, order ∈ myOrders this →
     (order_signal order = Buy ∨ order_signal order = Sell) ∧
     (is_Some (tickers this !! order_symbol order) ∨
      is_Some (tickers_proto this) ∧ order_symbol order ∈ ["bid"; "ask"]) ∧
     ∃ series,
       candles this !! order_symbol order = Some (Series series) ∧ series ≠ []) ∧
  filter (hasCandleData this) (myOrders this) = myOrders this ∧
  ∃ value, getCurrentPoL this = (this, Normal value).
Proof.
  intros this.
  destruct (fresh_underEvents symbols maxSpendInUSD evs) as (_ & _ & _ & Hsound).
  fold this in Hsound.
  split; [by apply Forall_forall|]. split.
  - apply filter_all. eapply Forall_impl; [exact Hsound|].
    intros order (_ & _ & series & Hseries & _). unfold hasCandleData.
    apply readCandles_Series in Hseries. by rewrite Hseries.
  - by apply getCurrentPoL_normal, ledgerSound_marked.
Qed.

(** X11. Without a ticker there is no trade: as long as no ['ticker']
    event has come in, the bot has no ticker, the prototype of
    [this.tickers] is [Object.prototype], and the ledger stays empty,
    whatever candles the bot has received. *)
Theorem no_ticker_no_trade {num : Type} `{!JSNumber num, !Indicators num}
    (symbols : list string) (maxSpendInUSD : num)
    (evs : list (WsEvent num * (string → num * Z))) :
  Forall (λ ev, ¬ isTickerEvent ev.1) evs →
  tickers (run evs (constructor symbols maxSpendInUSD)) = ∅ ∧
  tickers_proto (run evs (constructor symbols maxSpendInUSD)) = None ∧
  myOrders (run evs (constructor symbols maxSpendInUSD)) = [].
Proof.
  intros Hquiet.
  assert (tickers (run evs (constructor symbols maxSpendInUSD)) = ∅ ∧
          tickers_proto (run evs (constructor symbols maxSpendInUSD)) = None)
    as [Hnone Hproto].
  { assert (tickers (constructor symbols maxSpendInUSD) = ∅ ∧
            tickers_proto (constructor symbols maxSpendInUSD) = None) as Hinit
      by done.
    revert Hinit. generalize (constructor symbols maxSpendInUSD).
    induction Hquiet as [|[ev env] evs Hev _ IH]; intros this Hthis; [done|].
    cbn [run foldl fst snd]. apply IH.
    destruct (deliver_tickers_quiet this ev env Hev) as [-> ->]. done. }
  split; [done|]. split; [done|].
  destruct (fresh_underEvents symbols maxSpendInUSD evs) as (_ & _ & _ & Hsound).
  unfold ledgerSound, everTicker in Hsound.
  destruct (myOrders (run evs (constructor symbols maxSpendInUSD)))
    as [|order orders]; [done|].
  apply Forall_cons in Hsound as [(_ & Hticker & _) _].
  rewrite Hnone, Hproto, lookup_empty in Hticker.
  by destruct Hticker as [[? ?]|[[? ?] _]].
Qed.

Lemma no_ticker_no_trade_witness :
  let evs := [(EvCandle (Array (reverse (RawObject ∘ stick_candle <$> risingSticks)))
                        (Some "trade:1m:tBTCUSD"),
               draw)] in
  Forall (λ ev : WsEvent Q * (string → Q * Z), ¬ isTickerEvent ev.1) evs ∧
  signal rising = Buy ∧
  myOrders (run evs fresh) = [].
Proof.
  intros evs.
  assert (Forall (λ ev : WsEvent Q * (string → Q * Z), ¬ isTickerEvent ev.1) evs)
    as Hquiet by (repeat constructor; by intros []).
  split; [exact Hquiet|]. split; [by vm_compute|].
  exact (proj2 (proj2 (no_ticker_no_trade ["BTCUSD"] 1000%Q evs Hquiet))).
Defined.

(** X12. [getCurrentPoL] throws exactly when the ledger holds an order
    under whose symbol [this.candles] gives an empty array or a member of
    [Object.prototype]; in every other case it returns a number. It does
    so without touching the bot. *)
Theorem getCurrentPoL_throws_iff {num : Type} `{!JSNumber num}
    (this : SimpleBot num) :
  ((getCurrentPoL this).2 = Throw TypeError ↔
   ∃ order, order ∈ myOrders this ∧
            (readCandles this (order_symbol order) = Some (Series []) ∨
             readCandles this (order_symbol order) = Some Member)) ∧
  ((∃ value, (getCurrentPoL this).2 = Normal value) ↔
   ∀ order, order ∈ myOrders this →
            readCandles this (order_symbol order) ≠ Some (Series []) ∧
            readCandles this (order_symbol order) ≠ Some Member) ∧
  (getCurrentPoL this).1 = this.
Proof.
  assert ((getCurrentPoL this).2 = Throw TypeError ↔
          ∃ order, order ∈ myOrders this ∧
                   (readCandles this (order_symbol order) = Some (Series []) ∨
                    readCandles this (order_symbol order) = Some Member))
    as Hthrows.
  { unfold getCurrentPoL; cbn [snd]. rewrite sumChanges_throws, Exists_exists.
    by setoid_rewrite not_marked_iff. }
  split; [exact Hthrows|]. split; [|done].
  destruct ((getCurrentPoL this).2) as [value|[]].
  - split; [|by eauto]. intros _ order Hin.
    split; intros Hbad;
      (assert (Normal value = Throw TypeError) as Habs by (apply Hthrows; eauto));
      done.
  - split; [by intros [? ?]|]. intros Hnone.
    destruct Hthrows as [(order & Hin & Hbad) _]; [done|].
    destruct (Hnone order Hin) as [? ?]. by destruct Hbad.
Qed.

(** X13. [checkTrade] keeps no memory of what it placed: while what it
    reads for a symbol stays as it is and gives [Buy] or [Sell], each
    further call appends one more order with the same signal and the
    same price. *)
Theorem checkTrade_repeats {num : Type} `{!JSNumber num, !Indicators num}
    (this : SimpleBot num) (symbol : string) (draws : list (num * Z)) :
  actionable this symbol →
  let this' :=
    foldl (λ bot draw, (checkTrade symbol draw.1 draw.2 bot).1) this draws in
  actionable this' symbol ∧
  ∃ new series lastCandle,
    myOrders this' = myOrders this ++ new ∧
    length new = length draws ∧
    candles this !! symbol = Some (Series series) ∧
    last series = Some lastCandle ∧
    Forall (λ order,
              order_symbol order = symbol ∧
              order_signal order = signal (close <$> series) ∧
              order_price order = close lastCandle)
           new.
Proof.
  revert this. induction draws as [|[random now] draws IH]; intros this Hact.
  - cbn [foldl]. split; [done|].
    destruct Hact as (_ & series & Hseries & Hne & _).
    destruct (last series) as [lastCandle|] eqn:Hlast;
      [|by apply last_None in Hlast].
    exists [], series, lastCandle. by rewrite app_nil_r.
  - cbn [foldl].
    destruct Hact as (Hticker & series & Hseries & Hne & Hsignal).
    destruct (checkTrade_acts this symbol random now _ Hticker Hseries Hsignal)
      as (lastCandle & Hlast & Heq).
    destruct (checkTrade_stores this symbol random now) as (Hc & Ht & Hp).
    assert (myOrders (checkTrade symbol random now this).1 =
            myOrders this ++ [orderFor this symbol series lastCandle random now])
      as Hledger by by rewrite Heq.
    set (order := orderFor this symbol series lastCandle random now) in *.
    clear Heq.
    cbn [fst snd] in *.
    set (this1 := (checkTrade symbol random now this).1) in *.
    assert (actionable this1 symbol) as Hact1.
    { split; [by rewrite (hasTicker_ext this1 this)|].
      exists series. by rewrite Hc. }
    destruct (IH this1 Hact1)
      as (Hact' & new & series' & lastCandle' & Hledger' & Hlen & Hseries' & Hlast' & Hall).
    split; [done|]. exists (order :: new), series, lastCandle.
    rewrite Hc, Hseries in Hseries'. injection Hseries' as <-.
    rewrite Hlast in Hlast'. injection Hlast' as <-.
    split_and!; [|by cbn; rewrite Hlen|done|done|by constructor].
    rewrite Hledger', Hledger, <-app_assoc. done.
Qed.

Lemma checkTrade_repeats_witness :
  actionable ready "BTCUSD" ∧
  length (myOrders
            (foldl (λ bot draw, (checkTrade "BTCUSD" draw.1 draw.2 bot).1) ready
                   [((1 # 2)%Q, 1%Z); ((1 # 4)%Q, 2%Z); ((3 # 4)%Q, 3%Z)])) = 3.
Proof.
  split; [apply ready_actionable|].
  destruct (checkTrade_repeats ready "BTCUSD"
              [((1 # 2)%Q, 1%Z); ((1 # 4)%Q, 2%Z); ((3 # 4)%Q, 3%Z)]
              ready_actionable)
    as (_ & new & _ & _ & -> & Hlen & _).
  rewrite length_app, Hlen. reflexivity.
Defined.

(** ** Sizing and marking of an order, in exact arithmetic *)










(** ** Traffic on the socket *)

Section traffic_facts.
Context {num : Type}.

Lemma socketCalls_subscriptions (symbols : list string) :
  socketCalls (subscriptions (num:=num) symbols) = subscriptions symbols.
Proof.
  unfold socketCalls, subscriptions.
  induction symbols as [|symbol symbols IH]; [done|].
  cbn [mbind list_bind]. rewrite filter_app, IH. done.
Qed.

Lemma socketCalls_actionsOf (symbols : list string) (ev : WsEvent num) :
  socketCalls (actionsOf symbols ev) =
  match ev with
  | EvClose => [WsOpen]
  | EvOpen => subscriptions symbols
  | _ => []
  end.
Proof.
  pose proof (data_actions symbols ev) as Hdata.
  destruct ev as [[json|e]| | |pair ticker|payload pair]; unfold actionsOf in *;
    cbn [wsHandler] in *; try done.
  - unfold socketCalls. rewrite filter_cons_False by done.
    apply socketCalls_subscriptions.
  - by destruct Hdata as [->|[[? ->]|[(? & ? & ->)|[? ->]]]].
  - by destruct Hdata as [->|[[? ->]|[(? & ? & ->)|[? ->]]]].
Qed.
End traffic_facts.

(** X16. The only calls the adapter makes on the socket are: [open()]
    once at [start], [open()] once per ['close'], and, per ['open'], the
    ticker and candle subscriptions of the configured symbols in list
    order. The ['error'], ['ticker'] and ['candle'] handlers never touch
    the socket. *)
Theorem socket_traffic {num : Type} (symbols : list string)
    (evs : list (WsEvent num)) :
  socketCalls (serviceTrace symbols evs) =
  WsOpen :: (evs ≫= λ ev,
               match ev with
               | EvClose => [WsOpen]
               | EvOpen => subscriptions symbols
               | _ => []
               end) ∧
  length (subscriptions (num:=num) symbols) = 2 * length symbols.
Proof.
  split.
  - unfold serviceTrace, socketCalls. rewrite filter_app.
    change (filter _ start) with ([WsOpen] : list (Action num)).
    cbn [app]. f_equal.
    induction evs as [|ev evs IH]; [done|].
    cbn [mbind list_bind]. rewrite filter_app, IH. f_equal.
    apply socketCalls_actionsOf.
  - unfold subscriptions. induction symbols as [|symbol symbols IH]; [done|].
    cbn [mbind list_bind] in *. rewrite length_app, IH. cbn. lia.
Qed.

(** ** Tickers *)

(** X17. A ['ticker'] event with an object as ticker stores its [bid] and
    [ask], as they are, under the canonical symbol of the pair, replacing
    what was there: whatever [this.tickers] gives under another name, the
    candles and the ledger are left alone, and no trade is checked. The
    symbol [__proto__] is the exception, unless the bot has a property of
    that name: the prices then become the prototype of [this.tickers], no
    property is created, and what [this.tickers] gives under [bid] and
    [ask] may change. After two such events for the same pair only the
    second shows. *)
Theorem ticker_last_write_wins {num : Type} `{!JSNumber num, !Indicators num}
    (this : SimpleBot num) (pair : string) (ticker : Prices num)
    (env : string → num * Z) :
  ∃ symbol,
    formatSymbol (Some pair) = Normal symbol ∧
    let prices := {| bid := bid ticker; ask := ask ticker |} in
    let this' := (deliver (EvTicker (Some pair) (RawObject ticker)) env this).1 in
    (symbol ≠ "__proto__" ∨ is_Some (tickers this !! symbol) →
     tickers this' !! symbol = Some prices ∧
     (∀ other, other ≠ symbol → tickers this' !! other = tickers this !! other) ∧
     tickers_proto this' = tickers_proto this ∧
     (∀ other, other ≠ symbol → hasTicker this' other = hasTicker this other)) ∧
    (symbol = "__proto__" ∧ tickers this !! symbol = None →
     tickers this' = tickers this ∧
     tickers_proto this' = Some prices ∧
     (∀ other, other ≠ "bid" → other ≠ "ask" →
               hasTicker this' other = hasTicker this other) ∧
     (tickers this !! "bid" = None → hasTicker this' "bid" = js_truthy (bid ticker)) ∧
     (tickers this !! "ask" = None → hasTicker this' "ask" = js_truthy (ask ticker))) ∧
    candles this' = candles this ∧
    myOrders this' = myOrders this ∧
    (deliver (EvTicker (Some pair) (RawObject ticker)) env this).2 = Normal () ∧
    (∀ ticker2 env2,
       deliver (EvTicker (Some pair) (RawObject ticker2)) env2 this' =
       deliver (EvTicker (Some pair) (RawObject ticker2)) env2 this).
Proof.
  destruct (formatSymbol_Some pair) as [symbol Hsymbol].
  exists symbol. split; [done|].
  assert (∀ (ticker' : Prices num) env' (bot : SimpleBot num),
            deliver (EvTicker (Some pair) (RawObject ticker')) env' bot =
            onUpdateTickers symbol
              {| bid := bid ticker'; ask := ask ticker' |} bot) as Hdeliver.
  { intros ticker' env' bot. unfold deliver. cbn [wsHandler]. unfold onTicker.
    rewrite Hsymbol. cbn [mbind completion_bind]. by rewrite forEach_singleton. }
  intros prices this'. unfold this'. rewrite !(Hdeliver ticker env this).
  unfold onUpdateTickers.
  destruct (decide (symbol = "__proto__" ∧ tickers this !! symbol = None))
    as [[-> Hnone]|Hown].
  - rewrite bool_decide_eq_true_2 by done. cbn [fst snd]. split_and!; [| |done..|].
    + intros [?|[? Hsome]]; [done|]. rewrite Hnone in Hsome. done.
    + intros _. split_and!; [done..| | |].
      * intros other Hbid Hask. unfold hasTicker. cbn.
        destruct (tickers this !! other); [done|].
        rewrite !bool_decide_eq_false_2 by done.
        by destruct (tickers_proto this).
      * intros Hbid. unfold hasTicker. cbn. by rewrite Hbid.
      * intros Hask. unfold hasTicker. cbn. by rewrite Hask.
    + intros ticker2 env2. rewrite (Hdeliver ticker2 env2 this).
      rewrite (Hdeliver ticker2 env2). unfold onUpdateTickers. cbn.
      by rewrite !bool_decide_eq_true_2 by done.
  - rewrite bool_decide_eq_false_2 by done. cbn [fst snd].
    split_and!; [| |done..|].
    + intros _. split_and!; [|  |done|].
      * cbn. by rewrite lookup_insert_eq.
      * intros other Hother. cbn. by rewrite lookup_insert_ne.
      * intros other Hother. unfold hasTicker. cbn.
        by rewrite lookup_insert_ne.
    + intros Hproto. by destruct Hown.
    + intros ticker2 env2. rewrite (Hdeliver ticker2 env2 this).
      rewrite (Hdeliver ticker2 env2). unfold onUpdateTickers. cbn.
      rewrite bool_decide_eq_false_2.
      2:{ intros [-> Hnone]. rewrite lookup_insert_eq in Hnone. done. }
      rewrite bool_decide_eq_false_2 by done.
      unfold with_tickers. cbn. by rewrite insert_insert_eq.
Qed.

(** ** Socket events as calls on the bot *)

(** X18. One ['candle'] event places at most one order: whatever its
    payload and channel key, the ledger afterwards is the ledger before
    with nothing or a single order appended. *)
Theorem candle_event_places_at_most_one_order {num : Type}
    `{!JSNumber num, !Indicators num}
    (this : SimpleBot num) (payload : Payload num) (pair : option string)
    (env : string → num * Z) :
  ∃ new,
    myOrders (deliver (EvCandle payload pair) env this).1 = myOrders this ++ new ∧
    length new ≤ 1.
Proof.
  destruct (deliver_candle this payload pair env)
    as [(_ & _ & ->)|[(key & _ & _ & _ & _ & ->)|(symbol & _ & _ & _ & _ & ->)]].
  - exists []. rewrite app_nil_r. split; [done|cbn; lia].
  - exists []. rewrite app_nil_r. split; [done|cbn; lia].
  - destruct (onUpdateCandles_ledger this
                (toStick symbol <$> omap stamped (arranged payload)) env)
      as (new & Hledger & Hsub & _).
    exists new. split; [done|].
    pose proof (sublist_NoDup _ _ (object_keys_NoDup _) Hsub) as Hnodup.
    pose proof (sublist_subseteq _ _ Hsub) as Hin.
    destruct new as [|order1 [|order2 new]]; [cbn; lia..|].
    exfalso. cbn in Hnodup.
    assert (order_symbol order1 ∈
              stick_symbol <$> (toStick symbol <$> omap stamped (arranged payload)))
      as Hin1 by (apply updatedSymbols_elem_of, object_keys_elem_of, Hin; by left).
    assert (order_symbol order2 ∈
              stick_symbol <$> (toStick symbol <$> omap stamped (arranged payload)))
      as Hin2
      by (apply updatedSymbols_elem_of, object_keys_elem_of, Hin; by right; left).
    rewrite <-list_fmap_compose in Hin1, Hin2.
    apply list_elem_of_fmap in Hin1 as (? & Heq1 & _).
    apply list_elem_of_fmap in Hin2 as (? & Heq2 & _). cbn in Heq1, Heq2.
    apply NoDup_cons in Hnodup as [Hnot _]. apply Hnot.
    rewrite Heq1, Heq2. by left.
Qed.

(** X19. What the adapter does to the bot is a sequence of calls to
    [onUpdateTickers] and [onUpdateCandles], at most one per socket event:
    every state reached under socket events is reached by such calls. *)
Theorem run_as_calls {num : Type} `{!JSNumber num, !Indicators num}
    (evs : list (WsEvent num * (string → num * Z))) (this : SimpleBot num) :
  ∃ calls : list Call,
    run evs this = after calls this ∧
    length calls ≤ length evs ∧
    Forall isUpdateCall calls.
Proof.
  revert this. induction evs as [|[ev env] evs IH]; intros this.
  { by exists []. }
  cbn [run foldl].
  destruct (deliver_as_calls this ev env) as (calls1 & Hstep & Hlen1 & Hall1).
  destruct (IH (deliver ev env this).1) as (calls2 & Hrest & Hlen2 & Hall2).
  exists (calls1 ++ calls2). split_and!.
  - unfold run in Hrest. cbn [fst snd]. rewrite Hrest, Hstep.
    unfold after. by rewrite foldl_app.
  - rewrite length_app. cbn [length]. lia.
  - by apply Forall_app.
Qed.

(** ** Marking to market, trades and the store, away from the names of
    [Object.prototype] *)

(** X20. When, for every order, what [this.candles] gives under its
    symbol is nothing or an array that is not empty, [getCurrentPoL]
    leaves the bot as it is and returns the sum, started at 0 and taken in
    ledger order over exactly the orders whose symbol has candle data, of
    [direction(signal) * (lastClose - price) * amount], with
    [direction(buy) = 1] and [direction(sell) = -1]; an order whose symbol
    has no candle data leaves the running value as it is; the result is 0
    for an empty ledger. *)
Theorem getCurrentPoL_marks_to_market {num : Type} `{!JSNumber num}
    (this : SimpleBot num) :
  Forall (marked this) (myOrders this) →
  (∃ changes : list num,
     Forall2 (λ order change,
                ∃ lastClose',
                  lastClose this (order_symbol order) = Some lastClose' ∧
                  change = nmul (nmul (direction (order_signal order))
                                      (nsub lastClose' (order_price order)))
                                (order_amount order))
             (filter (hasCandleData this) (myOrders this)) changes ∧
     getCurrentPoL this = (this, Normal (foldl nadd num_zero changes))) ∧
  (∀ value order,
     ¬ hasCandleData this order → addChange this value order = Normal value) ∧
  direction Buy = num_one ∧ direction Sell = num_neg_one ∧
  (myOrders this = [] → getCurrentPoL this = (this, Normal num_zero)).
Proof.
  intros Hall. split_and!.
  - destruct (sumChanges_spec this num_zero (myOrders this) Hall)
      as (changes & Hchanges & Hsum).
    exists changes. split; [done|]. unfold getCurrentPoL. by rewrite Hsum.
  - intros value order. apply sumChanges_no_data.
  - done.
  - done.
  - intros Hempty. unfold getCurrentPoL. by rewrite Hempty.
Qed.

Lemma getCurrentPoL_marks_to_market_witness :
  Forall (marked (position Buy)) (myOrders (position Buy)) ∧
  getCurrentPoL (position Buy) = (position Buy, Normal 20%Q) ∧
  getCurrentPoL (position Sell) = (position Sell, Normal (-20)%Q).
Proof.
  split; [apply position_marked|]. split.
  - destruct (getCurrentPoL_marks_to_market (position Buy) (position_marked Buy))
      as [(changes & Hall & ->) _].
    vm_compute in Hall.
    inversion Hall as [|order change orders changes' (lc & Hlc & Hchange) Hrest];
      subst.
    inversion Hrest; subst. injection Hlc as <-. reflexivity.
  - destruct (getCurrentPoL_marks_to_market (position Sell) (position_marked Sell))
      as [(changes & Hall & ->) _].
    vm_compute in Hall.
    inversion Hall as [|order change orders changes' (lc & Hlc & Hchange) Hrest];
      subst.
    inversion Hrest; subst. injection Hlc as <-. reflexivity.
Defined.

(** X21. [checkTrade] appends exactly one order when [this.tickers]
    gives something truthy under the symbol, [this.candles] a non-empty
    array, and the combined signal is [Buy] or [Sell]: the order carries
    that symbol and signal and the close of the last candle as its price,
    and nothing else of the state changes. In every other case the state
    is left as it is. Without ticker or without candles the call returns
    at once; when both reads give something and that of [this.candles] is
    a member of [Object.prototype], it throws; it completes whenever that
    read gives no such member and every order can be marked. *)
Theorem checkTrade_appends_iff_actionable {num : Type}
    `{!JSNumber num, !Indicators num}
    (this : SimpleBot num) (symbol : string) (random : num) (now : Z) :
  let this' := (checkTrade symbol random now this).1 in
  (actionable this symbol →
   ∃ order series lastCandle,
     myOrders this' = myOrders this ++ [order] ∧
     candles this !! symbol = Some (Series series) ∧
     last series = Some lastCandle ∧
     order_symbol order = symbol ∧
     order_signal order = signal (close <$> series) ∧
     order_price order = close lastCandle ∧
     candles this' = candles this ∧ tickers this' = tickers this ∧
     tickers_proto this' = tickers_proto this) ∧
  (¬ actionable this symbol → this' = this) ∧
  (hasTicker this symbol = false ∨ readCandles this symbol = None →
   checkTrade symbol random now this = (this, Normal ())) ∧
  (hasTicker this symbol = true → readCandles this symbol = Some Member →
   checkTrade symbol random now this = (this, Throw TypeError)) ∧
  (readCandles this symbol ≠ Some Member →
   Forall (marked this) (myOrders this) →
   (checkTrade symbol random now this).2 = Normal ()).
Proof.
  intros this'. split_and!.
  - intros (Ht & series & Hc & _ & Ha).
    destruct (checkTrade_acts this symbol random now _ Ht Hc Ha)
      as (lastCandle & Hlast & Heq).
    exists (orderFor this symbol series lastCandle random now), series, lastCandle.
    unfold this'. by rewrite Heq.
  - intros Hno. unfold this'.
    destruct (not_actionable_cases this symbol Hno)
      as [Hnr|[[Ht Hm]|(series & Ht & Hc & Hq)]].
    + by rewrite checkTrade_not_ready.
    + by rewrite checkTrade_member.
    + by erewrite checkTrade_quiet.
  - apply checkTrade_not_ready.
  - apply checkTrade_member.
  - apply checkTrade_normal.
Qed.

Lemma checkTrade_appends_iff_actionable_witness :
  actionable ready "BTCUSD" ∧
  ∃ order,
    myOrders (checkTrade "BTCUSD" (1 # 2)%Q 1000 ready).1 = [order] ∧
    order_signal order = Buy ∧ order_price order = 25%Q.
Proof.
  split; [apply ready_actionable|].
  destruct (checkTrade_appends_iff_actionable ready "BTCUSD" (1 # 2)%Q 1000)
    as [Hacts _].
  destruct (Hacts ready_actionable)
    as (order & series & lastCandle & Hledger & Hseries & Hlast & _ & Hsig & Hprice & _).
  exists order. split; [exact Hledger|].
  assert (series = stick_candle <$> risingSticks) as ->.
  { rewrite ready_series in Hseries. by injection Hseries as <-. }
  assert (lastCandle = candleAt 25 25%Q) as ->.
  { assert (last (stick_candle <$> risingSticks) = Some (candleAt 25 25%Q))
      as Hl by by vm_compute.
    congruence. }
  split; [rewrite Hsig; by vm_compute|exact Hprice].
Defined.

(** X22. After any sequence of calls on a freshly built bot, every array
    of the candle store is non-empty, so its last candle is there; what
    [this.candles] gives under a name is a member of [Object.prototype]
    exactly for the names of its members. Hence, when no order bears such
    a name, [getCurrentPoL] returns a number, and [checkTrade] and
    [onUpdateCandles] complete for every symbol that is no such name: the
    read of the last element never falls on an empty array. *)
Theorem candle_store_never_empty {num : Type} `{!JSNumber num, !Indicators num}
    (symbols : list string) (maxSpendInUSD : num) (calls : list Call) :
  let this := after calls (constructor symbols maxSpendInUSD) in
  candlesNonEmpty this ∧
  (∀ symbol series,
     candles this !! symbol = Some (Series series) → is_Some (last series)) ∧
  (∀ symbol, readCandles this symbol = Some Member ↔ inherited symbol = true) ∧
  (Forall (λ order, inherited (order_symbol order) = false) (myOrders this) →
   (∃ value, getCurrentPoL this = (this, Normal value)) ∧
   (∀ symbol random now,
      inherited symbol = false → (checkTrade symbol random now this).2 = Normal ()) ∧
   (∀ sticks env,
      Forall (λ stick, inherited (stick_symbol stick) = false) sticks →
      (onUpdateCandles sticks env this).2 = Normal ())).
Proof.
  intros this.
  destruct (constructor_store_invariants symbols maxSpendInUSD) as (Hne0 & Hm0 & _).
  destruct (after_store_invariants (constructor symbols maxSpendInUSD) calls
              (conj Hne0 Hm0)) as [Hne Hm].
  fold this in Hne, Hm. split_and!.
  - done.
  - intros symbol series Hseries. apply last_is_Some. by eapply Hne.
  - intros symbol. by apply membersApart_read.
  - intros Hnames.
    assert (Forall (marked this) (myOrders this)) as Hall.
    { eapply Forall_impl; [exact Hnames|]. intros order. by apply ordinary_marked. }
    split_and!.
    + by apply getCurrentPoL_normal.
    + intros symbol random now Hname. apply checkTrade_normal; [|done].
      rewrite (membersApart_read _ _ Hm). congruence.
    + intros sticks env Hsticks. apply onUpdateCandles_normal; [|done].
      eapply Forall_impl; [exact Hsticks|]. intros stick Hname. cbn beta.
      rewrite (membersApart_read _ _ Hm). congruence.
Qed.
